(** * CRC risk model: the numerical pipeline of [app.py]

    A shallow embedding of the hazard model, the SEER incidence lookup, the
    bisection calibrator, the alpha composer and the [/predict] handler of
    [app.py], with the properties stated for them.

    Conventions of the embedding.
    - Python [float] values are real numbers ([R]): arithmetic is exact,
      [math.exp] is the real exponential, and there is neither rounding nor
      overflow.  Python [int] values are in [Z] and enter real arithmetic
      through [IZR], as Python's implicit int-to-float conversion does.
    - A Python [dict] iterated with [.items()] is an association list in
      insertion order; the pandas [Series] of coefficients and the
      [clinical_scale] dictionary, which are only looked up by key, are
      finite maps [gmap string R].
    - A raised exception is the [inl] of a sum; the functions that can raise
      return [result A]. *)

From Stdlib Require Import Reals Lra Lia ZArith String Ascii List.
From stdpp Require Import gmap strings.
Import ListNotations.

Open Scope R_scope.

(** ** Exceptions *)

Inductive exn : Type :=
| ValueError (msg : string)
| KeyError (key : string).

Definition result (A : Type) : Type := (exn + A)%type.

Definition ret {A : Type} (a : A) : result A := inr a.
Definition raise {A : Type} (e : exn) : result A := inl e.

Definition bind {A B : Type} (m : result A) (k : A -> result B) : result B :=
  match m with
  | inl e => inl e
  | inr a => k a
  end.

Notation "x <-! m ; k" := (bind m (fun x => k))
  (at level 100, m at next level, right associativity).

(** [d[key]] on a dictionary or a Series: [KeyError] when the key is absent. *)
Definition getitem (d : gmap string R) (key : string) : result R :=
  match d !! key with
  | Some v => ret v
  | None => raise (KeyError key)
  end.

(** ** Part 1: Paterson model constants *)

Definition N : R := 1e8.
Definition u : R := 1.25e-8.

Definition n_APC : R := 604.
Definition n_TP53 : R := 73.
Definition n_KRAS : R := 20.

Definition r_APC : R := n_APC * u.
Definition r_TP53 : R := n_TP53 * u.
Definition r_KRAS : R := n_KRAS * u.

Definition r_LOH : R := 1.36e-4.

Definition b1 : R := 0.20.
Definition b2 : R := 0.07.
Definition b12 : R := b1 + b2.

Definition c1 : R := 5.88.
Definition c2 : R := 3.6.
Definition c : R := c1 * c2.

(** ** Part 2: baseline hazard and Paterson risk *)

(** The constant [A] of [baseline_hazard]. *)
Definition A : R :=
  c * N * r_APC * r_TP53 * r_KRAS * (r_LOH ^ 2)
  * (1 / (b12 ^ 3 * (b12 - b1)) +
     1 / (b12 ^ 3 * (b12 - b2)) +
     1 / (b12 ^ 2 * (b12 - b2) ^ 2)).

Definition baseline_hazard (age : R) : R :=
  let H0 := A * (age ^ 2) * exp (b12 * age) in
  if Rgt_dec H0 50 then 50.0 else H0.

Definition paterson_baseline_risk (age : R) : R :=
  let H0 := baseline_hazard age in
  1 - exp (- H0).

(** ** Part 4: personalized and conditional risk *)

Definition personalized_risk (age alpha : R) : R :=
  let H0 := baseline_hazard age in
  let H := alpha * H0 in
  let H := if Rgt_dec H 50 then 50.0 else H in
  1 - exp (- H).

Definition conditional_risk (age_now age_future alpha : R) : R :=
  let p_now := personalized_risk age_now alpha in
  let p_future := personalized_risk age_future alpha in
  if Rge_dec p_now 1.0 then 0.0
  else (p_future - p_now) / (1 - p_now).

(** ** Part 3: ML coefficients and the alpha composer *)

(** Literature-guided clinical scaling (relative effect strength). *)
Definition clinical_scale : gmap string R :=
  <["TP53_mut" := 0.5]> (<["APC_mut" := 1.0]> (<["MMR_defect" := 1.0]>
  (<["KRAS_mut" := 0.3]> (<["BMI" := 0.2]> (<["Sex_bin" := 0.1]> ∅))))).

(** [coeff.abs() / ref_coef]: the Series of relative weights. *)
Definition norm_coeff (coeff : gmap string R) (ref_coef : R) : gmap string R :=
  (fun x => Rabs x / ref_coef) <$> coeff.

(** One pass of the body of [for feature, value in patient_features.items()]. *)
Definition alpha_step (norm : gmap string R) (log_alpha : R)
    (item : string * R) : result R :=
  let '(feature, value) := item in
  match norm !! feature with
  | None => ret log_alpha
  | Some w =>
      if decide (feature = "BMI"%string) then
        if Rgt_dec value 25 then
          s <-! getitem clinical_scale feature;
          ret (log_alpha + Rmin (s * w * (value - 25)) 1.0)
        else ret log_alpha
      else if decide (feature = "Sex_bin"%string) then
        if Req_dec_T value 0 then
          s <-! getitem clinical_scale feature;
          ret (log_alpha - Rmin (s * w) 0.3)
        else ret log_alpha
      else
        s <-! getitem clinical_scale feature;
        ret (log_alpha + Rmin (s * w * value) 1.0)
  end.

(** The [for] loop over the items of a dictionary, threading [log_alpha]. *)
Fixpoint for_items (step : R -> string * R -> result R)
    (items : list (string * R)) (acc : R) : result R :=
  match items with
  | [] => ret acc
  | item :: rest => acc' <-! step acc item; for_items step rest acc'
  end.

Definition compute_alpha (coeff : gmap string R)
    (patient_features : list (string * R)) (log_alpha_base : R) : result R :=
  ref_coef <-! getitem coeff "APC_mut";
  let norm := norm_coeff coeff ref_coef in
  log_alpha <-! for_items (alpha_step norm) patient_features log_alpha_base;
  let alpha := exp log_alpha in
  ret (Rmax (Rmin alpha 5.0) 0.01).

(** ** Part 5: SEER incidence and calibration *)

(** A row of the SEER table.  The [Age_Group] label ["start-end"] is held
    already split and converted, as [map(int, label.split("-"))] yields it. *)
Record seer_row : Type := {
  Age_Group : Z * Z;
  Male_Rate : R;
  Female_Rate : R
}.

Definition in_band (row : seer_row) (age : R) : Prop :=
  IZR (fst (Age_Group row)) <= age /\ age <= IZR (snd (Age_Group row)).

Definition rate_of (row : seer_row) (sex_bin : Z) : R :=
  if (sex_bin =? 1)%Z then Male_Rate row else Female_Rate row.

Fixpoint get_seer_incidence (seer_df : list seer_row) (age : R) (sex_bin : Z)
    : result R :=
  match seer_df with
  | [] => raise (ValueError "Age not covered in SEER table")
  | row :: rest =>
      let '(start, end_) := Age_Group row in
      if Rle_dec (IZR start) age then
        if Rle_dec age (IZR end_) then ret (rate_of row sex_bin)
        else get_seer_incidence rest age sex_bin
      else get_seer_incidence rest age sex_bin
  end.

(** The loop [for _ in range(n)] of [calibrate_log_alpha], followed by the
    final [return mid].  [mid] is the value the variable holds from the
    previous pass; only the final [return] reads it. *)
Fixpoint bisect_loop (n : nat) (age target_5yr low high mid : R) : R :=
  match n with
  | O => mid
  | S n' =>
      let mid := (low + high) / 2 in
      let alpha := exp mid in
      let model_5yr := conditional_risk age (age + 5) alpha in
      if Rlt_dec (Rabs (model_5yr - target_5yr)) 1e-4 then mid
      else if Rlt_dec model_5yr target_5yr
           then bisect_loop n' age target_5yr mid high mid
           else bisect_loop n' age target_5yr low mid mid
  end.

Definition calibrate_log_alpha (seer_df : list seer_row) (age : R) (sex_bin : Z)
    : result R :=
  incidence <-! get_seer_incidence seer_df age sex_bin;
  let target_5yr := 1 - exp (-5 * incidence / 100000) in
  ret (bisect_loop 100 age target_5yr (-5) 2 0).

(** ** Part 8: the [/predict] handler *)

Module PatientInput.

Record t : Type := {
  age : R;
  bmi : R;
  gender : string;
  kras : Z;
  apc : Z;
  tp53 : Z;
  mmr : Z
}.

End PatientInput.

(** [str.lower()] on the ASCII letters. *)
Definition lower_ascii (ch : ascii) : ascii :=
  let n := nat_of_ascii ch in
  if ((65 <=? n)%nat && (n <=? 90)%nat)%bool then ascii_of_nat (n + 32) else ch.

Fixpoint lower (s : string) : string :=
  match s with
  | EmptyString => EmptyString
  | String ch rest => String (lower_ascii ch) (lower rest)
  end.

(** Nearest integer, ties to the even one. *)
Definition round_half_even (x : R) : Z :=
  let f := Int_part x in
  let r := x - IZR f in
  if Rlt_dec r (1 / 2) then f
  else if Rgt_dec r (1 / 2) then (f + 1)%Z
  else if Z.even f then f else (f + 1)%Z.

(** [round(x, ndigits)]. *)
Definition round (x : R) (ndigits : nat) : R :=
  IZR (round_half_even (x * 10 ^ ndigits)) / 10 ^ ndigits.

(** [v] is [x] rounded to [ndigits] decimals: a multiple of [10^-ndigits]
    at distance at most half a unit in the last place from [x]. *)
Definition rounded_to (ndigits : nat) (x v : R) : Prop :=
  (exists z : Z, v = IZR z / 10 ^ ndigits) /\
  Rabs (v - x) <= / 2 / 10 ^ ndigits.

Definition predict_risk (coeff : gmap string R) (seer_df : list seer_row)
    (data : PatientInput.t) : result (list (string * R)) :=
  let sex_bin :=
    if String.eqb (lower (PatientInput.gender data)) "male" then 1%Z else 0%Z in
  let patient :=
    [ ("BMI"%string, PatientInput.bmi data);
      ("Sex_bin"%string, IZR sex_bin);
      ("KRAS_mut"%string, IZR (PatientInput.kras data));
      ("TP53_mut"%string, IZR (PatientInput.tp53 data));
      ("APC_mut"%string, IZR (PatientInput.apc data));
      ("MMR_defect"%string, IZR (PatientInput.mmr data)) ] in
  let age := PatientInput.age data in
  log_alpha <-! calibrate_log_alpha seer_df age sex_bin;
  alpha <-! compute_alpha coeff patient log_alpha;
  let risk_5yr := conditional_risk age (age + 5) alpha in
  let risk_10yr := conditional_risk age (age + 10) alpha in
  let lifetime_risk := personalized_risk 80 alpha in
  let risk_5yr := conditional_risk age (age + 5) alpha in
  let risk_10yr := conditional_risk age (age + 10) alpha in
  ret [ ("risk_5yr_percent"%string, round (risk_5yr * 100) 2);
        ("risk_10yr_percent"%string, round (risk_10yr * 100) 2);
        ("alpha"%string, round alpha 3) ].

(** ** The bisection as the specification words it

    [bisection f target k low high x]: started at pass [k] (counted from 0)
    on the interval [[low, high]], the search for [f = target] stops with
    [x].  A pass stops at the midpoint when [f] is within [1e-4] of the
    target there; otherwise it raises the lower bound to the midpoint when
    [f] is below the target and lowers the upper bound otherwise; the
    hundredth pass stops at its midpoint in any case. *)
Inductive bisection (f : R -> R) (target : R) : nat -> R -> R -> R -> Prop :=
| bisection_hit k low high :
    (k < 100)%nat ->
    Rabs (f ((low + high) / 2) - target) < 1e-4 ->
    bisection f target k low high ((low + high) / 2)
| bisection_raise_low k low high x :
    (S k < 100)%nat ->
    ~ Rabs (f ((low + high) / 2) - target) < 1e-4 ->
    f ((low + high) / 2) < target ->
    bisection f target (S k) ((low + high) / 2) high x ->
    bisection f target k low high x
| bisection_lower_high k low high x :
    (S k < 100)%nat ->
    ~ Rabs (f ((low + high) / 2) - target) < 1e-4 ->
    ~ f ((low + high) / 2) < target ->
    bisection f target (S k) low ((low + high) / 2) x ->
    bisection f target k low high x
| bisection_exhausted low high :
    ~ Rabs (f ((low + high) / 2) - target) < 1e-4 ->
    bisection f target 99 low high ((low + high) / 2).

(** ** Part 6: calibration debug check *)

(** What [print] emits: a line of text, or the calibration row
    [f"Age {age}: SEER 5-yr = {..:.3f}% , Model 5-yr = {..:.3f}% , log_alpha = {..:.3f}"],
    held as the age and the three numbers that the row formats. *)
Inductive printed : Type :=
| Text (line : string)
| CalibrationRow (age : Z) (seer_5yr_percent model_5yr_percent log_alpha : R).

Definition test_ages : list Z := [45; 50; 60; 70]%Z.

(** The body of [for age in test_ages], up to the row it prints. *)
Definition check_age (seer_df : list seer_row) (sex_bin age : Z) : result printed :=
  incidence <-! get_seer_incidence seer_df (IZR age) sex_bin;
  let target_5yr := 1 - exp (-5 * incidence / 100000) in
  log_alpha <-! calibrate_log_alpha seer_df (IZR age) sex_bin;
  let alpha := exp log_alpha in
  let model_5yr := conditional_risk (IZR age) (IZR age + 5) alpha in
  ret (CalibrationRow age (target_5yr * 100) (model_5yr * 100) log_alpha).

(** The inner loop: [out] is what has been printed so far; the loop stops at
    the first exception, which it returns with the output up to there. *)
Fixpoint check_ages (seer_df : list seer_row) (sex_bin : Z) (ages : list Z)
    (out : list printed) : list printed * result unit :=
  match ages with
  | [] => (out, ret tt)
  | age :: rest =>
      match check_age seer_df sex_bin age with
      | inl e => (out, inl e)
      | inr row => check_ages seer_df sex_bin rest (out ++ [row])
      end
  end.

(** The outer loop [for sex_bin in [0, 1]]. *)
Fixpoint check_sexes (seer_df : list seer_row) (sexes : list Z)
    (out : list printed) : list printed * result unit :=
  match sexes with
  | [] => (out, ret tt)
  | sex_bin :: rest =>
      let sex_label := if (sex_bin =? 0)%Z then "Female"%string else "Male"%string in
      let out :=
        out ++ [Text (String (ascii_of_nat 10)
                        ("=== Calibration check for " ++ sex_label ++ " ==="))] in
      match check_ages seer_df sex_bin test_ages out with
      | (out', inl e) => (out', inl e)
      | (out', inr _) => check_sexes seer_df rest out'
      end
  end.

(** [debug_check_calibration()], which the module runs when it is loaded:
    the lines printed and the outcome. *)
Definition debug_check_calibration (seer_df : list seer_row)
    : list printed * result unit :=
  check_sexes seer_df [0; 1]%Z [].

(** ** Part 7: modern population baseline *)

Definition population_lifetime_risk (sex_bin : Z) : R :=
  if (sex_bin =? 1)%Z then 0.043 else 0.040.

Definition relative_risk_category (rr : R) : string :=
  if Rlt_dec rr 1.0 then "Below average population risk"
  else if Rlt_dec rr 2.0 then "Average population risk"
  else if Rlt_dec rr 4.0 then "Moderately elevated risk"
  else "Very high risk".

(** ** Auxiliary predicates used in the statements below *)

(** The sixteen spellings of "male" in upper and lower case. *)
Definition male_spelling (g : string) : Prop :=
  exists c1 c2 c3 c4 : ascii,
    g = String c1 (String c2 (String c3 (String c4 EmptyString))) /\
    (c1 = "m"%char \/ c1 = "M"%char) /\ (c2 = "a"%char \/ c2 = "A"%char) /\
    (c3 = "l"%char \/ c3 = "L"%char) /\ (c4 = "e"%char \/ c4 = "E"%char).


(** A record with another gender string. *)
Definition with_gender (data : PatientInput.t) (g : string) : PatientInput.t :=
  {| PatientInput.age := PatientInput.age data;
     PatientInput.bmi := PatientInput.bmi data;
     PatientInput.gender := g;
     PatientInput.kras := PatientInput.kras data;
     PatientInput.apc := PatientInput.apc data;
     PatientInput.tp53 := PatientInput.tp53 data;
     PatientInput.mmr := PatientInput.mmr data |}.

(** * Properties *)

(** ** Bounds on the exponential at rational points *)

Lemma exp_le_mono (x y : R) : x <= y -> exp x <= exp y.
Proof.
  intros [Hlt | ->]; [left; now apply exp_increasing | right; reflexivity].
Qed.

Lemma exp_INR_mult (n : nat) (y : R) : exp (INR n * y) = exp y ^ n.
Proof.
  induction n as [| n IH].
  - simpl. rewrite Rmult_0_l. apply exp_0.
  - rewrite S_INR, Rmult_plus_distr_r, Rmult_1_l, exp_plus, IH. simpl. ring.
Qed.

Lemma exp_Z_mult (m : Z) (x y : R) :
  (0 <= m)%Z -> x = IZR m * y -> exp x = exp y ^ Z.to_nat m.
Proof.
  intros Hm ->. rewrite <- exp_INR_mult, INR_IZR_INZ, Z2Nat.id by assumption.
  reflexivity.
Qed.

(** A quotient of integers below a power of a quotient of integers. *)
Lemma quotient_le_pow (a b c d n : Z) :
  (0 < b)%Z -> (0 < d)%Z -> (0 <= n)%Z ->
  (a * d ^ n <= b * c ^ n)%Z ->
  IZR a / IZR b <= (IZR c / IZR d) ^ Z.to_nat n.
Proof.
  intros Hb Hd Hn Hle.
  assert (HbR : 0 < IZR b) by now apply IZR_lt.
  assert (HdR : 0 < IZR d) by now apply IZR_lt.
  unfold Rdiv at 2. rewrite Rpow_mult_distr, pow_inv, !pow_IZR, Z2Nat.id by assumption.
  assert (HdnR : 0 < IZR (d ^ n)) by (apply IZR_lt, Z.pow_pos_nonneg; assumption).
  apply Rmult_le_reg_r with (IZR b * IZR (d ^ n)); [now apply Rmult_lt_0_compat |].
  replace (IZR a / IZR b * (IZR b * IZR (d ^ n))) with (IZR a * IZR (d ^ n))
    by (field; lra).
  replace (IZR (c ^ n) * / IZR (d ^ n) * (IZR b * IZR (d ^ n)))
    with (IZR b * IZR (c ^ n)) by (field; lra).
  rewrite <- !mult_IZR. now apply IZR_le.
Qed.

Lemma pow_le_quotient (a b c d n : Z) :
  (0 < b)%Z -> (0 < d)%Z -> (0 <= n)%Z ->
  (b * c ^ n <= a * d ^ n)%Z ->
  (IZR c / IZR d) ^ Z.to_nat n <= IZR a / IZR b.
Proof.
  intros Hb Hd Hn Hle.
  assert (HbR : 0 < IZR b) by now apply IZR_lt.
  assert (HdR : 0 < IZR d) by now apply IZR_lt.
  unfold Rdiv at 1. rewrite Rpow_mult_distr, pow_inv, !pow_IZR, Z2Nat.id by assumption.
  assert (HdnR : 0 < IZR (d ^ n)) by (apply IZR_lt, Z.pow_pos_nonneg; assumption).
  apply Rmult_le_reg_r with (IZR b * IZR (d ^ n)); [now apply Rmult_lt_0_compat |].
  replace (IZR a / IZR b * (IZR b * IZR (d ^ n))) with (IZR a * IZR (d ^ n))
    by (field; lra).
  replace (IZR (c ^ n) * / IZR (d ^ n) * (IZR b * IZR (d ^ n)))
    with (IZR b * IZR (c ^ n)) by (field; lra).
  rewrite <- !mult_IZR. now apply IZR_le.
Qed.

(** [exp y >= a / b] when [y = n * p / q] and [a / b <= (1 + p/q)^n]. *)
Lemma exp_lower_rational (a b p q n : Z) (y : R) :
  (0 < b)%Z -> (0 < q)%Z -> (0 <= p)%Z -> (0 <= n)%Z ->
  y * IZR q = IZR n * IZR p ->
  (a * q ^ n <= b * (q + p) ^ n)%Z ->
  IZR a / IZR b <= exp y.
Proof.
  intros Hb Hq Hp Hn Hy Hle.
  assert (HqR : 0 < IZR q) by now apply IZR_lt.
  assert (HpR : 0 <= IZR p) by now apply IZR_le.
  rewrite (exp_Z_mult n y (IZR p / IZR q) Hn)
    by (apply Rmult_eq_reg_r with (IZR q); [rewrite Hy; field; lra | lra]).
  apply Rle_trans with ((IZR (q + p) / IZR q) ^ Z.to_nat n);
    [now apply quotient_le_pow |].
  apply pow_incr. split.
  - apply Rmult_le_pos; [apply IZR_le; lia | left; now apply Rinv_0_lt_compat].
  - replace (IZR (q + p) / IZR q) with (1 + IZR p / IZR q)
      by (rewrite plus_IZR; field; lra).
    apply exp_ineq1_le.
Qed.

(** [exp y <= a / b] when [y = n * p / q], [p < q] and
    [(1 / (1 - p/q))^n <= a / b]. *)
Lemma exp_upper_rational (a b p q n : Z) (y : R) :
  (0 < b)%Z -> (0 <= p < q)%Z -> (0 <= n)%Z ->
  y * IZR q = IZR n * IZR p ->
  (b * q ^ n <= a * (q - p) ^ n)%Z ->
  exp y <= IZR a / IZR b.
Proof.
  intros Hb [Hp Hpq] Hn Hy Hle.
  assert (HqR : 0 < IZR q) by (apply IZR_lt; lia).
  assert (HpR : 0 <= IZR p) by now apply IZR_le.
  assert (HpqR : IZR p < IZR q) by now apply IZR_lt.
  assert (HqpR : 0 < IZR (q - p)) by (apply IZR_lt; lia).
  rewrite (exp_Z_mult n y (IZR p / IZR q) Hn)
    by (apply Rmult_eq_reg_r with (IZR q); [rewrite Hy; field; lra | lra]).
  apply Rle_trans with ((IZR q / IZR (q - p)) ^ Z.to_nat n);
    [| apply pow_le_quotient; [assumption | lia | assumption | assumption]].
  apply pow_incr. split; [left; apply exp_pos |].
  set (z := IZR p / IZR q).
  assert (Hz : 0 <= z < 1).
  { unfold z. split.
    - apply Rmult_le_pos; [assumption | left; now apply Rinv_0_lt_compat].
    - apply Rmult_lt_reg_r with (IZR q); [assumption |].
      unfold Rdiv. rewrite Rmult_assoc, Rinv_l by lra. lra. }
  replace (IZR q / IZR (q - p)) with (/ (1 - z))
    by (unfold z; rewrite minus_IZR; field; lra).
  replace z with (- - z) at 1 by ring. rewrite exp_Ropp.
  apply Rinv_le_contravar; [lra |].
  replace (1 - z) with (1 + - z) by ring. apply exp_ineq1_le.
Qed.

(** [exp x >= k] when [x = m * y], [exp y >= a / b] and [(a / b)^m >= k]. *)
Lemma exp_lower_power (k a b m : Z) (x y : R) :
  (0 < b)%Z -> (0 <= a)%Z -> (0 <= m)%Z -> x = IZR m * y ->
  IZR a / IZR b <= exp y ->
  (k * b ^ m <= a ^ m)%Z ->
  IZR k <= exp x.
Proof.
  intros Hb Ha Hm Hx Hy Hle.
  rewrite (exp_Z_mult m x y Hm Hx).
  apply Rle_trans with ((IZR a / IZR b) ^ Z.to_nat m).
  - replace (IZR k) with (IZR k / IZR 1) by (unfold Rdiv; rewrite Rinv_1; ring).
    apply quotient_le_pow; [lia | assumption | assumption | lia].
  - apply pow_incr. split; [| assumption].
    apply Rmult_le_pos; [now apply IZR_le | left; apply Rinv_0_lt_compat, IZR_lt, Hb].
Qed.

(** [exp x <= k] when [x = m * y], [exp y <= a / b] and [(a / b)^m <= k]. *)
Lemma exp_upper_power (k a b m : Z) (x y : R) :
  (0 < b)%Z -> (0 <= m)%Z -> x = IZR m * y ->
  exp y <= IZR a / IZR b ->
  (a ^ m <= k * b ^ m)%Z ->
  exp x <= IZR k.
Proof.
  intros Hb Hm Hx Hy Hle.
  rewrite (exp_Z_mult m x y Hm Hx).
  apply Rle_trans with ((IZR a / IZR b) ^ Z.to_nat m).
  - apply pow_incr. split; [left; apply exp_pos | assumption].
  - replace (IZR k) with (IZR k / IZR 1) by (unfold Rdiv; rewrite Rinv_1; ring).
    apply pow_le_quotient; [lia | assumption | assumption | lia].
Qed.

(** ** The hazard constant and the raw hazard at the ages used below *)

Lemma A_bounds : 8.9e-14 < A < 9e-14.
Proof.
  unfold A, c, c1, c2, N, r_APC, r_TP53, r_KRAS, r_LOH, n_APC, n_TP53, n_KRAS,
    u, b12, b1, b2.
  split; lra.
Qed.

Lemma A_pos : 0 < A.
Proof. pose proof A_bounds. lra. Qed.

Lemma b12_value : b12 = 0.27.
Proof. unfold b12, b1, b2. lra. Qed.

Lemma exp_0_243_bounds : IZR 1274 / IZR 1000 <= exp 0.243 <= IZR 1276 / IZR 1000.
Proof.
  split.
  - apply (exp_lower_rational 1274 1000 3 1000 81); [lia | lia | lia | lia | lra |].
    vm_compute. discriminate.
  - apply (exp_upper_rational 1276 1000 3 1000 81); [lia | lia | lia | lra |].
    vm_compute. discriminate.
Qed.

Lemma exp_0_27_bound : IZR 1309 / IZR 1000 <= exp 0.27.
Proof.
  apply (exp_lower_rational 1309 1000 3 1000 90); [lia | lia | lia | lia | lra |].
  vm_compute. discriminate.
Qed.

Lemma exp_24_3_bounds : 20000000000 <= exp 24.3 <= 60000000000.
Proof.
  pose proof exp_0_243_bounds as [Hlo Hhi]. split.
  - apply (exp_lower_power 20000000000 1274 1000 100 24.3 0.243);
      [lia | lia | lia | lra | exact Hlo |].
    vm_compute. discriminate.
  - apply (exp_upper_power 60000000000 1276 1000 100 24.3 0.243);
      [lia | lia | lra | exact Hhi |].
    vm_compute. discriminate.
Qed.

Lemma exp_25_65_bound : 70000000000 <= exp 25.65.
Proof.
  apply (exp_lower_power 70000000000 1309 1000 95 25.65 0.27);
    [lia | lia | lia | lra | exact exp_0_27_bound |].
  vm_compute. discriminate.
Qed.


(** ** The hazard model in closed form *)

Lemma clamp_Rmin (x : R) : (if Rgt_dec x 50 then 50.0 else x) = Rmin x 50.
Proof.
  destruct (Rgt_dec x 50) as [Hgt | Hle]; unfold Rmin;
    destruct (Rle_dec x 50) as [Hle' | Hgt']; lra.
Qed.

Lemma baseline_hazard_Rmin (age : R) :
  baseline_hazard age = Rmin (A * age ^ 2 * exp (b12 * age)) 50.
Proof. unfold baseline_hazard. cbv zeta. apply clamp_Rmin. Qed.

Lemma personalized_risk_Rmin (age alpha : R) :
  personalized_risk age alpha = 1 - exp (- Rmin (alpha * baseline_hazard age) 50).
Proof. unfold personalized_risk. cbv zeta. now rewrite clamp_Rmin. Qed.

Lemma raw_hazard_nonneg (age : R) : 0 <= A * age ^ 2 * exp (b12 * age).
Proof.
  pose proof A_pos. pose proof (exp_pos (b12 * age)). pose proof (pow2_ge_0 age).
  apply Rmult_le_pos; [apply Rmult_le_pos |]; lra.
Qed.

Lemma raw_hazard_mono (a1 a2 : R) :
  0 <= a1 <= a2 ->
  A * a1 ^ 2 * exp (b12 * a1) <= A * a2 ^ 2 * exp (b12 * a2).
Proof.
  intros [H0 H12]. pose proof A_pos as HA.
  assert (Hsq : a1 ^ 2 <= a2 ^ 2) by (apply pow_incr; lra).
  assert (Hexp : exp (b12 * a1) <= exp (b12 * a2)).
  { apply exp_le_mono. rewrite b12_value. nra. }
  pose proof (exp_pos (b12 * a1)). pose proof (pow2_ge_0 a1).
  apply Rmult_le_compat; try nra.
Qed.

Lemma baseline_hazard_range (age : R) : 0 <= baseline_hazard age <= 50.
Proof.
  rewrite baseline_hazard_Rmin. pose proof (raw_hazard_nonneg age).
  split; [apply Rmin_glb; lra | apply Rmin_r].
Qed.

Lemma baseline_hazard_mono (a1 a2 : R) :
  0 <= a1 <= a2 -> baseline_hazard a1 <= baseline_hazard a2.
Proof.
  intros H. rewrite !baseline_hazard_Rmin.
  apply Rle_min_compat_r. now apply raw_hazard_mono.
Qed.



Lemma personalized_risk_lt_1 (age alpha : R) : personalized_risk age alpha < 1.
Proof.
  rewrite personalized_risk_Rmin.
  pose proof (exp_pos (- Rmin (alpha * baseline_hazard age) 50)). lra.
Qed.



(** The saturation test of [conditional_risk] never fires: the quotient is
    always the value returned. *)
Lemma conditional_risk_quotient (age_now age_future alpha : R) :
  conditional_risk age_now age_future alpha =
  (personalized_risk age_future alpha - personalized_risk age_now alpha)
  / (1 - personalized_risk age_now alpha).
Proof.
  unfold conditional_risk. cbv zeta.
  destruct (Rge_dec (personalized_risk age_now alpha) 1.0) as [Hsat | _];
    [| reflexivity].
  pose proof (personalized_risk_lt_1 age_now alpha). lra.
Qed.

(** [conditional_risk] is [1 - exp (-(H_future - H_now))]. *)
Lemma conditional_risk_exp (age_now age_future alpha : R) :
  conditional_risk age_now age_future alpha =
  1 - exp (- (Rmin (alpha * baseline_hazard age_future) 50
              - Rmin (alpha * baseline_hazard age_now) 50)).
Proof.
  rewrite conditional_risk_quotient, !personalized_risk_Rmin.
  set (Hf := Rmin (alpha * baseline_hazard age_future) 50).
  set (Hn := Rmin (alpha * baseline_hazard age_now) 50).
  replace (- (Hf - Hn)) with (- Hf + - - Hn) by ring.
  rewrite exp_plus, (exp_Ropp (- Hn)).
  pose proof (exp_pos (- Hn)). field. lra.
Qed.

(** ** The baseline hazard at ages 90, 95 and 100 *)

Lemma baseline_hazard_90 : 14 < baseline_hazard 90 < 44.
Proof.
  rewrite baseline_hazard_Rmin.
  replace (b12 * 90) with 24.3 by (rewrite b12_value; lra).
  pose proof A_bounds as [HA1 HA2]. pose proof exp_24_3_bounds as [He1 He2].
  assert (Hraw : 14 < A * 90 ^ 2 * exp 24.3 < 44) by (split; nra).
  rewrite Rmin_left by lra. exact Hraw.
Qed.

Lemma baseline_hazard_95 : baseline_hazard 95 = 50.
Proof.
  rewrite baseline_hazard_Rmin.
  replace (b12 * 95) with 25.65 by (rewrite b12_value; lra).
  pose proof A_bounds as [HA1 HA2]. pose proof exp_25_65_bound as He.
  apply Rmin_right. nra.
Qed.


(** ** HazardModel *)

(** C6: for every age >= 0 the baseline hazard is non-negative, at most 50
    and non-decreasing in age, and it is 0 at age 0. *)
Theorem baseline_hazard_nonneg_mono_capped (a1 a2 : R) :
  0 <= a1 <= a2 ->
  0 <= baseline_hazard a1 <= 50 /\
  baseline_hazard a1 <= baseline_hazard a2 /\
  baseline_hazard 0 = 0.
Proof.
  intros H. split; [apply baseline_hazard_range |].
  split; [now apply baseline_hazard_mono |].
  rewrite baseline_hazard_Rmin.
  replace (A * 0 ^ 2 * exp (b12 * 0)) with 0 by (simpl; ring).
  apply Rmin_left. lra.
Qed.

Lemma baseline_hazard_nonneg_mono_capped_witness :
  0 <= baseline_hazard 40 <= 50 /\
  baseline_hazard 40 <= baseline_hazard 45 /\
  baseline_hazard 0 = 0.
Proof. apply (baseline_hazard_nonneg_mono_capped 40 45). lra. Defined.




(** C7: a zero-width horizon has zero conditional risk, and the conditional
    risk over any horizon [a, b] with b >= a >= 0 is non-negative. *)
Theorem conditional_risk_zero_width_and_nonneg (a b alpha : R) :
  0 <= a <= b -> 0 < alpha ->
  conditional_risk a a alpha = 0 /\ 0 <= conditional_risk a b alpha.
Proof.
  intros Hab Ha. split.
  - rewrite conditional_risk_exp.
    replace (- (_ - _)) with 0 by ring. rewrite exp_0. ring.
  - rewrite conditional_risk_exp.
    pose proof (baseline_hazard_mono a b Hab) as Hh.
    assert (Hle : Rmin (alpha * baseline_hazard a) 50 <= Rmin (alpha * baseline_hazard b) 50)
      by (apply Rle_min_compat_r; nra).
    assert (exp (- (Rmin (alpha * baseline_hazard b) 50
                    - Rmin (alpha * baseline_hazard a) 50)) <= exp 0)
      by (apply exp_le_mono; lra).
    rewrite exp_0 in *. lra.
Qed.

Lemma conditional_risk_zero_width_and_nonneg_witness :
  conditional_risk 50 50 1 = 0 /\ 0 <= conditional_risk 50 55 1.
Proof. apply (conditional_risk_zero_width_and_nonneg 50 55 1); lra. Defined.




(** ** AlphaComposer *)

Lemma clinical_scale_Sex_bin : clinical_scale !! "Sex_bin"%string = Some 0.1.
Proof. unfold clinical_scale. by simplify_map_eq. Qed.

Lemma norm_coeff_lookup (coeff : gmap string R) (ref_coef : R) (f : string) :
  norm_coeff coeff ref_coef !! f = (fun x => Rabs x / ref_coef) <$> (coeff !! f).
Proof. unfold norm_coeff. apply lookup_fmap. Qed.

Lemma norm_coeff_nonneg (coeff : gmap string R) (ref_coef w : R) (f : string) :
  0 < ref_coef -> norm_coeff coeff ref_coef !! f = Some w -> 0 <= w.
Proof.
  intros Href. rewrite norm_coeff_lookup.
  destruct (coeff !! f) as [cf |]; [| discriminate].
  intros [= <-]. pose proof (Rabs_pos cf).
  apply Rmult_le_pos; [assumption | left; now apply Rinv_0_lt_compat].
Qed.

(** Every pass over a feature known to [clinical_scale] adds to the
    accumulator an amount that does not depend on the accumulator. *)
Lemma alpha_step_additive (norm : gmap string R) (f : string) (v : R) :
  is_Some (clinical_scale !! f) ->
  exists d, forall acc, alpha_step norm acc (f, v) = inr (acc + d).
Proof.
  intros [s Hs]. unfold alpha_step, getitem. rewrite Hs.
  destruct (norm !! f) as [w |]; [| exists 0; intros; unfold ret; f_equal; ring].
  destruct (decide (f = "BMI"%string)) as [_ | _].
  { destruct (Rgt_dec v 25).
    - eexists. intros acc. reflexivity.
    - exists 0. intros acc. unfold ret. f_equal. ring. }
  destruct (decide (f = "Sex_bin"%string)) as [_ | _].
  { destruct (Req_dec_T v 0).
    - exists (- Rmin (s * w) 0.3). intros acc. reflexivity.
    - exists 0. intros acc. unfold ret. f_equal. ring. }
  eexists. intros acc. reflexivity.
Qed.

Lemma for_items_additive (norm : gmap string R) (items : list (string * R)) :
  Forall (fun item => is_Some (clinical_scale !! fst item)) items ->
  exists d, forall acc, for_items (alpha_step norm) items acc = inr (acc + d).
Proof.
  induction 1 as [| [f v] rest Hf _ [d IH]].
  - exists 0. intros acc. cbn [for_items]. unfold ret. f_equal. ring.
  - destruct (alpha_step_additive norm f v Hf) as [d0 Hd0].
    exists (d0 + d). intros acc. cbn [for_items]. rewrite Hd0. cbn [bind].
    rewrite IH. f_equal. ring.
Qed.

Lemma for_items_app (step : R -> string * R -> result R)
    (l1 l2 : list (string * R)) (acc : R) :
  for_items step (l1 ++ l2) acc = bind (for_items step l1 acc) (for_items step l2).
Proof.
  revert acc. induction l1 as [| item l1 IH]; intros acc; cbn [app for_items];
    [reflexivity |].
  destruct (step acc item) as [e | acc']; cbn [bind]; [reflexivity | apply IH].
Qed.

Lemma alpha_step_male (norm : gmap string R) (acc : R) :
  alpha_step norm acc ("Sex_bin"%string, 1) = inr acc.
Proof.
  unfold alpha_step. destruct (norm !! "Sex_bin"%string); [| reflexivity].
  destruct (decide ("Sex_bin"%string = "BMI"%string)); [discriminate |].
  destruct (decide ("Sex_bin"%string = "Sex_bin"%string)); [| congruence].
  destruct (Req_dec_T 1 0); [lra | reflexivity].
Qed.

Lemma alpha_step_female (norm : gmap string R) (acc : R) :
  alpha_step norm acc ("Sex_bin"%string, 0) =
  match norm !! "Sex_bin"%string with
  | Some w => inr (acc - Rmin (0.1 * w) 0.3)
  | None => inr acc
  end.
Proof.
  unfold alpha_step. destruct (norm !! "Sex_bin"%string); [| reflexivity].
  destruct (decide ("Sex_bin"%string = "BMI"%string)); [discriminate |].
  destruct (decide ("Sex_bin"%string = "Sex_bin"%string)); [| congruence].
  destruct (Req_dec_T 0 0); [| congruence].
  unfold getitem. rewrite clinical_scale_Sex_bin. reflexivity.
Qed.

Lemma alpha_clamp_range (alpha : R) : 0.01 <= Rmax (Rmin alpha 5.0) 0.01 <= 5.0.
Proof.
  split; [apply Rmax_r |].
  apply Rmax_lub; [apply Rmin_r | lra].
Qed.

Lemma alpha_clamp_mono (x y : R) :
  x <= y -> Rmax (Rmin (exp x) 5.0) 0.01 <= Rmax (Rmin (exp y) 5.0) 0.01.
Proof.
  intros Hxy. apply Rle_max_compat_r, Rle_min_compat_r, exp_le_mono, Hxy.
Qed.

(** C3: with a non-zero APC-mutation coefficient in the table, whatever
    [compute_alpha] returns lies in [0.01, 5.0], and it does return (raises
    nothing) on every feature set whose names [clinical_scale] knows. *)
Theorem compute_alpha_clamped (coeff : gmap string R)
    (patient_features : list (string * R)) (log_alpha_base ref_coef : R) :
  coeff !! "APC_mut"%string = Some ref_coef -> ref_coef <> 0 ->
  (forall alpha, compute_alpha coeff patient_features log_alpha_base = inr alpha ->
                 0.01 <= alpha <= 5.0) /\
  (Forall (fun item => is_Some (clinical_scale !! fst item)) patient_features ->
   exists alpha, compute_alpha coeff patient_features log_alpha_base = inr alpha).
Proof.
  intros Href _. unfold compute_alpha, getitem. rewrite Href. cbn [bind ret].
  split.
  - intros alpha.
    destruct (for_items _ patient_features log_alpha_base) as [e | log_alpha];
      cbn [bind]; [discriminate |].
    intros [= <-]. apply alpha_clamp_range.
  - intros Hknown.
    destruct (for_items_additive (norm_coeff coeff ref_coef) _ Hknown) as [d Hd].
    rewrite Hd. cbn [bind]. eexists. reflexivity.
Qed.

Lemma compute_alpha_clamped_witness :
  let coeff : gmap string R :=
    <["APC_mut"%string := 2]> (<["BMI"%string := 1]> ∅) in
  let features : list (string * R) :=
    [ ("BMI"%string, 30); ("Sex_bin"%string, 0); ("APC_mut"%string, 1) ] in
  exists alpha,
    compute_alpha coeff features 0 = inr alpha /\ 0.01 <= alpha <= 5.0.
Proof.
  intros coeff features.
  destruct (compute_alpha_clamped coeff features 0 2) as [Hrange Hreturns].
  - unfold coeff. by simplify_map_eq.
  - lra.
  - destruct Hreturns as [alpha Halpha].
    + unfold features. repeat constructor; unfold clinical_scale; by simplify_map_eq.
    + exists alpha. split; [exact Halpha | apply Hrange, Halpha].
Defined.

(** C4, as stated, fails: with APC coefficient -2 and BMI coefficient 1 the
    weight of BMI is -1/2, which is negative and is not |1| / |-2|. *)
Lemma norm_coeff_negative_reference :
  let coeff : gmap string R :=
    <["APC_mut"%string := -2]> (<["BMI"%string := 1]> ∅) in
  coeff !! "APC_mut"%string = Some (-2) /\ -2 <> 0 /\
  exists w, norm_coeff coeff (-2) !! "BMI"%string = Some w /\
            w < 0 /\ w <> Rabs 1 / Rabs (-2).
Proof.
  intros coeff. split; [unfold coeff; by simplify_map_eq |]. split; [lra |].
  exists (Rabs 1 / -2). split.
  - rewrite norm_coeff_lookup. unfold coeff. by simplify_map_eq.
  - rewrite Rabs_R1, (Rabs_left (-2)) by lra.
    replace (- -2) with 2 by lra. split; lra.
Qed.

(** C4 (amended): the weight of a feature is the magnitude of its
    coefficient divided by the APC-mutation coefficient itself, sign
    included; when that coefficient is positive the weight is the quotient of
    the two magnitudes and is non-negative. *)
Theorem norm_coeff_weight (coeff : gmap string R) (ref_coef cf : R)
    (feature : string) :
  coeff !! "APC_mut"%string = Some ref_coef -> ref_coef <> 0 ->
  coeff !! feature = Some cf ->
  norm_coeff coeff ref_coef !! feature = Some (Rabs cf / ref_coef) /\
  (0 < ref_coef ->
   Rabs cf / ref_coef = Rabs cf / Rabs ref_coef /\ 0 <= Rabs cf / ref_coef).
Proof.
  intros _ _ Hcf. split.
  - rewrite norm_coeff_lookup, Hcf. reflexivity.
  - intros Hpos. rewrite (Rabs_right ref_coef) by lra.
    split; [reflexivity |]. pose proof (Rabs_pos cf).
    apply Rmult_le_pos; [assumption | left; now apply Rinv_0_lt_compat].
Qed.

Lemma norm_coeff_weight_witness :
  let coeff : gmap string R :=
    <["APC_mut"%string := 2]> (<["BMI"%string := -1]> ∅) in
  norm_coeff coeff 2 !! "BMI"%string = Some (Rabs (-1) / 2) /\
  Rabs (-1) / 2 = Rabs (-1) / Rabs 2 /\ 0 <= Rabs (-1) / 2.
Proof.
  intros coeff.
  destruct (norm_coeff_weight coeff 2 (-1) "BMI") as [Hw Hpos].
  - unfold coeff. by simplify_map_eq.
  - lra.
  - unfold coeff. by simplify_map_eq.
  - split; [exact Hw | apply Hpos; lra].
Defined.

(** A flag that is 0 and a BMI at or below 25 leave the accumulator as it is. *)
Lemma alpha_step_flag_zero (norm : gmap string R) (acc : R) (f : string) :
  f <> "BMI"%string -> f <> "Sex_bin"%string -> is_Some (clinical_scale !! f) ->
  alpha_step norm acc (f, 0) = inr acc.
Proof.
  intros Hb Hs [s Hsc]. unfold alpha_step.
  destruct (norm !! f) as [w |]; [| reflexivity].
  destruct (decide (f = "BMI"%string)); [contradiction |].
  destruct (decide (f = "Sex_bin"%string)); [contradiction |].
  unfold getitem. rewrite Hsc. cbn [bind ret]. unfold ret. f_equal.
  rewrite Rmult_0_r, Rmin_left by lra. ring.
Qed.

Lemma alpha_step_BMI_low (norm : gmap string R) (acc v : R) :
  v <= 25 -> alpha_step norm acc ("BMI"%string, v) = inr acc.
Proof.
  intros Hv. unfold alpha_step.
  destruct (norm !! "BMI"%string); [| reflexivity].
  destruct (decide ("BMI"%string = "BMI"%string)); [| congruence].
  destruct (Rgt_dec v 25); [lra | reflexivity].
Qed.

(** C9, as stated, fails: with APC coefficient -1 (and every other
    coefficient 1) the weight of the sex indicator is -1, the "protective"
    term is min(0.1 * -1, 0.3) = -0.1, and subtracting it raises the
    female log-alpha to 0.1: the female alpha exp(0.1) exceeds the male
    alpha 1. *)
Lemma compute_alpha_female_above_male :
  let coeff : gmap string R :=
    <["TP53_mut"%string := 1]> (<["APC_mut"%string := -1]>
    (<["MMR_defect"%string := 1]> (<["KRAS_mut"%string := 1]>
    (<["BMI"%string := 1]> (<["Sex_bin"%string := 1]> ∅))))) in
  let features (sex : R) : list (string * R) :=
    [ ("BMI"%string, 22); ("Sex_bin"%string, sex); ("KRAS_mut"%string, 0);
      ("TP53_mut"%string, 0); ("APC_mut"%string, 0); ("MMR_defect"%string, 0) ] in
  coeff !! "APC_mut"%string = Some (-1) /\ -1 <> 0 /\
  exists alpha_f alpha_m,
    compute_alpha coeff (features 0) 0 = inr alpha_f /\
    compute_alpha coeff (features 1) 0 = inr alpha_m /\
    alpha_m < alpha_f.
Proof.
  intros coeff features.
  assert (Href : coeff !! "APC_mut"%string = Some (-1))
    by (unfold coeff; by simplify_map_eq).
  assert (Hsex : norm_coeff coeff (-1) !! "Sex_bin"%string = Some (Rabs 1 / -1))
    by (rewrite norm_coeff_lookup; unfold coeff; by simplify_map_eq).
  assert (Hflags : forall sex,
    for_items (alpha_step (norm_coeff coeff (-1))) (features sex) 0 =
    bind (alpha_step (norm_coeff coeff (-1)) 0 ("Sex_bin"%string, sex)) ret).
  { intros sex. unfold features. cbn [for_items].
    rewrite alpha_step_BMI_low by lra. cbn [bind].
    destruct (alpha_step _ 0 ("Sex_bin"%string, sex)) as [e | acc];
      cbn [bind]; [reflexivity |].
    repeat (rewrite alpha_step_flag_zero
              by first [discriminate | unfold clinical_scale; by simplify_map_eq];
            cbn [bind]).
    reflexivity. }
  split; [exact Href |]. split; [lra |].
  unfold compute_alpha, getitem. rewrite Href. cbn [bind ret].
  rewrite !Hflags, alpha_step_male, alpha_step_female, Hsex.
  cbn [bind ret]. do 2 eexists. split; [reflexivity |]. split; [reflexivity |].
  rewrite Rabs_R1. rewrite (Rmin_left (0.1 * (1 / -1))) by lra.
  replace (0 - 0.1 * (1 / -1)) with 0.1 by lra.
  pose proof (exp_ineq1_le 0.1) as He. rewrite exp_0.
  rewrite (Rmin_left 1), (Rmax_left 1) by lra.
  apply Rlt_le_trans with (Rmin (exp 0.1) 5.0); [| apply Rmax_l].
  apply Rmin_glb_lt; lra.
Qed.

(** C9 (amended): when the APC-mutation coefficient is positive, two
    feature sets that differ only in the sex indicator give a female alpha
    (Sex_bin = 0) at most the male alpha (Sex_bin = 1). *)
Theorem compute_alpha_female_le_male (coeff : gmap string R)
    (before after : list (string * R)) (log_alpha_base ref_coef : R) :
  coeff !! "APC_mut"%string = Some ref_coef -> 0 < ref_coef ->
  Forall (fun item => is_Some (clinical_scale !! fst item)) (before ++ after) ->
  exists alpha_f alpha_m,
    compute_alpha coeff (before ++ ("Sex_bin"%string, 0) :: after) log_alpha_base
      = inr alpha_f /\
    compute_alpha coeff (before ++ ("Sex_bin"%string, 1) :: after) log_alpha_base
      = inr alpha_m /\
    alpha_f <= alpha_m.
Proof.
  intros Href Hpos Hknown. apply Forall_app in Hknown as [Hb Ha].
  set (norm := norm_coeff coeff ref_coef).
  destruct (for_items_additive norm _ Hb) as [db Hdb].
  destruct (for_items_additive norm _ Ha) as [da Hda].
  unfold compute_alpha, getitem. rewrite Href. cbn [bind ret]. fold norm.
  rewrite !for_items_app, !Hdb. cbn [bind for_items].
  rewrite alpha_step_male, alpha_step_female. cbn [bind].
  destruct (norm !! "Sex_bin"%string) as [w |] eqn:Hw; cbn [bind];
    rewrite !Hda; cbn [bind]; do 2 eexists;
    (split; [reflexivity |]); (split; [reflexivity |]).
  - apply alpha_clamp_mono.
    pose proof (norm_coeff_nonneg _ _ _ _ Hpos Hw) as Hw0.
    assert (0 <= Rmin (0.1 * w) 0.3) by (apply Rmin_glb; lra).
    lra.
  - apply alpha_clamp_mono. lra.
Qed.

Lemma compute_alpha_female_le_male_witness :
  let coeff : gmap string R :=
    <["APC_mut"%string := 2]> (<["Sex_bin"%string := 1]> ∅) in
  exists alpha_f alpha_m,
    compute_alpha coeff ([("BMI"%string, 22)] ++ ("Sex_bin"%string, 0)
                          :: [("APC_mut"%string, 1)]) 0 = inr alpha_f /\
    compute_alpha coeff ([("BMI"%string, 22)] ++ ("Sex_bin"%string, 1)
                          :: [("APC_mut"%string, 1)]) 0 = inr alpha_m /\
    alpha_f <= alpha_m.
Proof.
  intros coeff.
  apply (compute_alpha_female_le_male coeff _ _ 0 2).
  - unfold coeff. by simplify_map_eq.
  - lra.
  - repeat constructor; unfold clinical_scale; by simplify_map_eq.
Defined.

(** ** IncidenceTable *)

Lemma get_seer_incidence_cons (row : seer_row) (rest : list seer_row)
    (age : R) (sex_bin : Z) :
  get_seer_incidence (row :: rest) age sex_bin =
  if Rle_dec (IZR (fst (Age_Group row))) age then
    if Rle_dec age (IZR (snd (Age_Group row))) then
      inr (if (sex_bin =? 1)%Z then Male_Rate row else Female_Rate row)
    else get_seer_incidence rest age sex_bin
  else get_seer_incidence rest age sex_bin.
Proof. cbn [get_seer_incidence]. destruct (Age_Group row). reflexivity. Qed.

Lemma get_seer_incidence_hit (row : seer_row) (rest : list seer_row)
    (age : R) (sex_bin : Z) :
  in_band row age ->
  get_seer_incidence (row :: rest) age sex_bin =
  inr (if (sex_bin =? 1)%Z then Male_Rate row else Female_Rate row).
Proof.
  intros [Hlo Hhi]. rewrite get_seer_incidence_cons.
  destruct (Rle_dec _ age); [| contradiction].
  destruct (Rle_dec age _); [reflexivity | contradiction].
Qed.

Lemma get_seer_incidence_skip (row : seer_row) (rest : list seer_row)
    (age : R) (sex_bin : Z) :
  ~ in_band row age ->
  get_seer_incidence (row :: rest) age sex_bin =
  get_seer_incidence rest age sex_bin.
Proof.
  intros Hout. rewrite get_seer_incidence_cons.
  destruct (Rle_dec _ age); [| reflexivity].
  destruct (Rle_dec age _); [| reflexivity].
  exfalso. apply Hout. split; assumption.
Qed.

Lemma get_seer_incidence_first (before after : list seer_row) (row : seer_row)
    (age : R) (sex_bin : Z) :
  Forall (fun r => ~ in_band r age) before -> in_band row age ->
  get_seer_incidence (before ++ row :: after) age sex_bin =
  inr (if (sex_bin =? 1)%Z then Male_Rate row else Female_Rate row).
Proof.
  induction 1 as [| r before Hr _ IH]; intros Hrow; cbn [app].
  - now apply get_seer_incidence_hit.
  - rewrite get_seer_incidence_skip by assumption. now apply IH.
Qed.

Lemma get_seer_incidence_uncovered (seer_df : list seer_row) (age : R)
    (sex_bin : Z) :
  Forall (fun r => ~ in_band r age) seer_df ->
  get_seer_incidence seer_df age sex_bin =
  inl (ValueError "Age not covered in SEER table").
Proof.
  induction 1 as [| r rest Hr _ IH]; [reflexivity |].
  now rewrite get_seer_incidence_skip.
Qed.

Lemma in_band_dec (row : seer_row) (age : R) :
  {in_band row age} + {~ in_band row age}.
Proof.
  unfold in_band.
  destruct (Rle_dec (IZR (fst (Age_Group row))) age);
    destruct (Rle_dec age (IZR (snd (Age_Group row)))); tauto.
Qed.

Lemma get_seer_incidence_covered (seer_df : list seer_row) (age : R)
    (sex_bin : Z) :
  Exists (fun r => in_band r age) seer_df ->
  exists rate, get_seer_incidence seer_df age sex_bin = inr rate.
Proof.
  induction seer_df as [| r rest IH]; intros Hex; [inversion Hex |].
  destruct (in_band_dec r age) as [Hin | Hout].
  - rewrite get_seer_incidence_hit by assumption. eexists. reflexivity.
  - rewrite get_seer_incidence_skip by assumption. apply IH.
    inversion Hex; subst; [contradiction | assumption].
Qed.

(** C8: the lookup returns the rate of the first band, in table order, whose
    inclusive range contains the age, from the male column when sex_bin is 1
    and from the female column otherwise; when no band contains the age it
    raises the error "Age not covered in SEER table" instead of returning a
    rate, and [calibrate_log_alpha] raises the same error. *)
Theorem get_seer_incidence_first_match_or_error (seer_df : list seer_row)
    (age : R) (sex_bin : Z) :
  (forall before row after,
     seer_df = before ++ row :: after ->
     Forall (fun r => ~ in_band r age) before -> in_band row age ->
     get_seer_incidence seer_df age sex_bin =
     inr (if (sex_bin =? 1)%Z then Male_Rate row else Female_Rate row)) /\
  (Forall (fun r => ~ in_band r age) seer_df ->
   get_seer_incidence seer_df age sex_bin =
     inl (ValueError "Age not covered in SEER table") /\
   calibrate_log_alpha seer_df age sex_bin =
     inl (ValueError "Age not covered in SEER table")).
Proof.
  split.
  - intros before row after -> Hbefore Hrow.
    now apply get_seer_incidence_first.
  - intros Hnone.
    pose proof (get_seer_incidence_uncovered _ _ sex_bin Hnone) as Herr.
    split; [exact Herr |].
    unfold calibrate_log_alpha. rewrite Herr. reflexivity.
Qed.

Lemma get_seer_incidence_first_match_or_error_witness :
  let band_20_49 := {| Age_Group := (20, 49)%Z; Male_Rate := 10; Female_Rate := 8 |} in
  let band_45_100 := {| Age_Group := (45, 100)%Z; Male_Rate := 90; Female_Rate := 70 |} in
  get_seer_incidence [band_20_49; band_45_100] 47 1 = inr 10 /\
  get_seer_incidence [band_20_49; band_45_100] 60 0 = inr 70 /\
  get_seer_incidence [band_20_49; band_45_100] 150 1 =
    inl (ValueError "Age not covered in SEER table") /\
  calibrate_log_alpha [band_20_49; band_45_100] 150 1 =
    inl (ValueError "Age not covered in SEER table").
Proof.
  intros young old.
  split; [| split].
  - apply (proj1 (get_seer_incidence_first_match_or_error [young; old] 47 1)
             [] young [old]); [reflexivity | constructor |].
    unfold in_band, young; cbn; lra.
  - apply (proj1 (get_seer_incidence_first_match_or_error [young; old] 60 0)
             [young] old []); [reflexivity | |].
    + repeat constructor. unfold in_band, young; cbn; lra.
    + unfold in_band, old; cbn; lra.
  - apply (proj2 (get_seer_incidence_first_match_or_error [young; old] 150 1)).
    repeat constructor; unfold in_band, young, old; cbn; lra.
Defined.

(** ** Calibrator *)

Lemma bisection_deterministic (f : R -> R) (target : R) (k : nat)
    (low high x y : R) :
  bisection f target k low high x -> bisection f target k low high y -> x = y.
Proof.
  intros Hx. revert y.
  induction Hx as [k low high Hk Htol | k low high x Hk Htol Hlt Hx IH
                  | k low high x Hk Htol Hge Hx IH | low high Htol];
    intros y Hy; inversion Hy; subst; try reflexivity; try contradiction;
    try lia; auto.
Qed.

(** With [n] passes left out of 100, the loop is the specified search
    started at pass [100 - n]. *)
Lemma bisect_loop_bisection (age target : R) (n k : nat) (low high mid : R) :
  (0 < n)%nat -> (k + n = 100)%nat ->
  bisection (fun m => conditional_risk age (age + 5) (exp m)) target
    k low high (bisect_loop n age target low high mid).
Proof.
  revert k low high mid.
  induction n as [| n IH]; intros k low high mid Hn Hk; [lia |].
  cbn [bisect_loop].
  destruct (Rlt_dec _ 1e-4) as [Htol | Htol].
  { apply bisection_hit; [lia | exact Htol]. }
  destruct n as [| n'].
  { replace k with 99%nat by lia.
    destruct (Rlt_dec _ target); cbn [bisect_loop];
      now apply bisection_exhausted. }
  destruct (Rlt_dec _ target) as [Hlt | Hge].
  - apply bisection_raise_low; [lia | exact Htol | exact Hlt |].
    apply IH; lia.
  - apply bisection_lower_high; [lia | exact Htol | exact Hge |].
    apply IH; lia.
Qed.

(** C1: for an age the table covers, with [rate] its annual incidence,
    [calibrate_log_alpha] returns (raises nothing) the outcome of the
    bisection on [-5, 2] for the target [1 - exp (-5 * rate / 100000)]: at
    most 100 passes, each stopping at the midpoint when the 5-year model risk
    there is within 1e-4 of the target, else raising the lower bound when the
    model risk is below the target and lowering the upper bound otherwise,
    the hundredth pass returning its midpoint in any case; that outcome is
    unique. *)
Theorem calibrate_log_alpha_bisection (seer_df : list seer_row) (age : R)
    (sex_bin : Z) (rate : R) :
  get_seer_incidence seer_df age sex_bin = inr rate ->
  exists x,
    calibrate_log_alpha seer_df age sex_bin = inr x /\
    bisection (fun m => conditional_risk age (age + 5) (exp m))
      (1 - exp (-5 * rate / 100000)) 0 (-5) 2 x /\
    forall y,
      bisection (fun m => conditional_risk age (age + 5) (exp m))
        (1 - exp (-5 * rate / 100000)) 0 (-5) 2 y -> y = x.
Proof.
  intros Hrate. unfold calibrate_log_alpha. rewrite Hrate. cbn [bind ret].
  eexists. split; [reflexivity |].
  assert (Hrun : bisection (fun m => conditional_risk age (age + 5) (exp m))
                   (1 - exp (-5 * rate / 100000)) 0 (-5) 2
                   (bisect_loop 100 age (1 - exp (-5 * rate / 100000)) (-5) 2 0))
    by (apply bisect_loop_bisection; lia).
  split; [exact Hrun |].
  intros y Hy. exact (bisection_deterministic _ _ _ _ _ _ _ Hy Hrun).
Qed.

Lemma calibrate_log_alpha_bisection_witness :
  let seer_df :=
    [ {| Age_Group := (50, 54)%Z; Male_Rate := 80; Female_Rate := 60 |} ] in
  exists x,
    calibrate_log_alpha seer_df 50 0 = inr x /\
    bisection (fun m => conditional_risk 50 (50 + 5) (exp m))
      (1 - exp (-5 * 60 / 100000)) 0 (-5) 2 x /\
    forall y,
      bisection (fun m => conditional_risk 50 (50 + 5) (exp m))
        (1 - exp (-5 * 60 / 100000)) 0 (-5) 2 y -> y = x.
Proof.
  intros seer_df.
  apply (calibrate_log_alpha_bisection seer_df 50 0 60).
  unfold seer_df. rewrite get_seer_incidence_hit; [reflexivity |].
  unfold in_band; cbn; lra.
Defined.

(** ** RiskEngine *)

Lemma round_half_even_near (x : R) : Rabs (IZR (round_half_even x) - x) <= / 2.
Proof.
  unfold round_half_even. cbv zeta.
  destruct (base_Int_part x) as [Hlo Hhi].
  destruct (Rlt_dec (x - IZR (Int_part x)) (1 / 2)) as [Hlt | Hge].
  { apply Rabs_le. lra. }
  destruct (Rgt_dec (x - IZR (Int_part x)) (1 / 2)) as [Hgt | Hle].
  { rewrite plus_IZR. apply Rabs_le. lra. }
  destruct (Z.even (Int_part x)); [| rewrite plus_IZR]; apply Rabs_le; lra.
Qed.

Lemma round_rounded_to (x : R) (ndigits : nat) :
  rounded_to ndigits x (round x ndigits).
Proof.
  unfold rounded_to, round. split; [eexists; reflexivity |].
  assert (Hpow : 0 < 10 ^ ndigits) by (apply pow_lt; lra).
  pose proof (round_half_even_near (x * 10 ^ ndigits)) as Hnear.
  replace (IZR (round_half_even (x * 10 ^ ndigits)) / 10 ^ ndigits - x)
    with ((IZR (round_half_even (x * 10 ^ ndigits)) - x * 10 ^ ndigits)
          * / 10 ^ ndigits) by (field; lra).
  rewrite Rabs_mult, (Rabs_right (/ 10 ^ ndigits))
    by (left; now apply Rinv_0_lt_compat).
  unfold Rdiv. apply Rmult_le_compat_r; [| exact Hnear].
  left. now apply Rinv_0_lt_compat.
Qed.

(** C10: for a record whose age some band of the table contains (and a
    coefficient table holding the APC-mutation entry), [predict_risk]
    returns a payload of exactly three entries, in this order:
    risk_5yr_percent, the 5-year conditional risk times 100 rounded to 2
    decimals; risk_10yr_percent, the 10-year conditional risk times 100
    rounded to 2 decimals; alpha, rounded to 3 decimals.  The lifetime risk
    [personalized_risk 80 alpha] is bound in the handler and is no entry of
    the payload. *)
Theorem predict_risk_payload (coeff : gmap string R) (seer_df : list seer_row)
    (data : PatientInput.t) (ref_coef : R) :
  Exists (fun row => in_band row (PatientInput.age data)) seer_df ->
  coeff !! "APC_mut"%string = Some ref_coef ->
  let age := PatientInput.age data in
  let sex_bin :=
    if String.eqb (lower (PatientInput.gender data)) "male" then 1%Z else 0%Z in
  exists log_alpha alpha v5 v10 va,
    calibrate_log_alpha seer_df age sex_bin = inr log_alpha /\
    compute_alpha coeff
      [ ("BMI"%string, PatientInput.bmi data);
        ("Sex_bin"%string, IZR sex_bin);
        ("KRAS_mut"%string, IZR (PatientInput.kras data));
        ("TP53_mut"%string, IZR (PatientInput.tp53 data));
        ("APC_mut"%string, IZR (PatientInput.apc data));
        ("MMR_defect"%string, IZR (PatientInput.mmr data)) ] log_alpha
      = inr alpha /\
    predict_risk coeff seer_df data =
      inr [ ("risk_5yr_percent"%string, v5);
            ("risk_10yr_percent"%string, v10);
            ("alpha"%string, va) ] /\
    v5 = round (conditional_risk age (age + 5) alpha * 100) 2 /\
    v10 = round (conditional_risk age (age + 10) alpha * 100) 2 /\
    va = round alpha 3 /\
    rounded_to 2 (conditional_risk age (age + 5) alpha * 100) v5 /\
    rounded_to 2 (conditional_risk age (age + 10) alpha * 100) v10 /\
    rounded_to 3 alpha va.
Proof.
  intros Hcov Href age sex_bin.
  destruct (get_seer_incidence_covered seer_df age sex_bin Hcov) as [rate Hrate].
  assert (Hcal : exists log_alpha,
             calibrate_log_alpha seer_df age sex_bin = inr log_alpha).
  { unfold calibrate_log_alpha. rewrite Hrate. cbn [bind ret]. eexists. reflexivity. }
  destruct Hcal as [log_alpha Hcal].
  set (patient := [ ("BMI"%string, PatientInput.bmi data);
                    ("Sex_bin"%string, IZR sex_bin);
                    ("KRAS_mut"%string, IZR (PatientInput.kras data));
                    ("TP53_mut"%string, IZR (PatientInput.tp53 data));
                    ("APC_mut"%string, IZR (PatientInput.apc data));
                    ("MMR_defect"%string, IZR (PatientInput.mmr data)) ]).
  assert (Halpha : exists alpha, compute_alpha coeff patient log_alpha = inr alpha).
  { unfold compute_alpha, getitem. rewrite Href. cbn [bind ret].
    destruct (for_items_additive (norm_coeff coeff ref_coef) patient) as [d Hd].
    - unfold patient. repeat constructor; unfold clinical_scale; by simplify_map_eq.
    - rewrite Hd. cbn [bind]. eexists. reflexivity. }
  destruct Halpha as [alpha Halpha].
  exists log_alpha, alpha. do 3 eexists.
  split; [exact Hcal |]. split; [exact Halpha |].
  split.
  { unfold predict_risk. cbv zeta. fold age sex_bin patient.
    rewrite Hcal. cbn [bind]. rewrite Halpha. cbn [bind]. reflexivity. }
  repeat split; try reflexivity; apply round_rounded_to.
Qed.

Lemma predict_risk_payload_witness :
  let coeff : gmap string R :=
    <["APC_mut"%string := 2]> (<["BMI"%string := 1]> ∅) in
  let seer_df :=
    [ {| Age_Group := (50, 54)%Z; Male_Rate := 80; Female_Rate := 60 |} ] in
  let data :=
    {| PatientInput.age := 52; PatientInput.bmi := 27;
       PatientInput.gender := "Male"; PatientInput.kras := 0;
       PatientInput.apc := 1; PatientInput.tp53 := 0; PatientInput.mmr := 0 |} in
  exists payload,
    predict_risk coeff seer_df data = inr payload /\
    map fst payload =
      [ "risk_5yr_percent"%string; "risk_10yr_percent"%string; "alpha"%string ].
Proof.
  intros coeff seer_df data.
  destruct (predict_risk_payload coeff seer_df data 2)
    as (log_alpha & alpha & v5 & v10 & va & _ & _ & Hpayload & _).
  - constructor. unfold in_band; cbn; lra.
  - unfold coeff. by simplify_map_eq.
  - eexists. split; [exact Hpayload | reflexivity].
Defined.

(** * Further properties of the code *)

(** ** HazardModel, continued *)

Lemma personalized_risk_alpha_one (age : R) :
  personalized_risk age 1 = paterson_baseline_risk age.
Proof.
  rewrite personalized_risk_Rmin. unfold paterson_baseline_risk. cbv zeta.
  rewrite Rmult_1_l, Rmin_left; [reflexivity |].
  rewrite baseline_hazard_Rmin. apply Rmin_r.
Qed.

Lemma baseline_hazard_from_95 (age : R) : 95 <= age -> baseline_hazard age = 50.
Proof.
  intros Hage. pose proof (baseline_hazard_mono 95 age ltac:(lra)) as Hm.
  rewrite baseline_hazard_95 in Hm.
  pose proof (baseline_hazard_range age). lra.
Qed.





Lemma conditional_risk_saturated (now future alpha : R) :
  0 <= now <= future -> 50 <= alpha * baseline_hazard now ->
  conditional_risk now future alpha = 0.
Proof.
  intros Hages Hsat. rewrite conditional_risk_exp.
  pose proof (baseline_hazard_mono now future Hages) as Hh.
  pose proof (baseline_hazard_range now) as [Hn0 Hn50].
  assert (Ha : 0 < alpha) by nra.
  rewrite !Rmin_right by nra.
  replace (- (50 - 50)) with 0 by ring. rewrite exp_0. ring.
Qed.

(** X1: With alpha = 1 the personalized risk is the Paterson baseline risk. *)
Theorem personalized_risk_one_is_baseline (age : R) :
  personalized_risk age 1 = paterson_baseline_risk age /\
  paterson_baseline_risk age = 1 - exp (- baseline_hazard age).
Proof. split; [apply personalized_risk_alpha_one | reflexivity]. Qed.



(** X3: From age 95 on the baseline hazard sits on its cap of 50, for every
    alpha the personalized risk is that of the scaled cap, and the baseline
    risk is the constant 1 - exp (-50). *)
Theorem baseline_hazard_saturated_from_95 (age : R) :
  95 <= age ->
  baseline_hazard age = 50 /\
  paterson_baseline_risk age = 1 - exp (- 50) /\
  forall alpha, personalized_risk age alpha = personalized_risk 95 alpha.
Proof.
  intros Hage.
  pose proof (baseline_hazard_from_95 age Hage) as Hsat.
  split; [exact Hsat |]. split.
  - unfold paterson_baseline_risk. cbv zeta. now rewrite Hsat.
  - intros alpha. now rewrite !personalized_risk_Rmin, Hsat, baseline_hazard_95.
Qed.

Lemma baseline_hazard_saturated_from_95_witness :
  baseline_hazard 97 = 50 /\
  paterson_baseline_risk 97 = 1 - exp (- 50) /\
  forall alpha, personalized_risk 97 alpha = personalized_risk 95 alpha.
Proof. apply baseline_hazard_saturated_from_95. lra. Defined.

(** X4: Below the cap the baseline hazard is strictly increasing in age. *)
Theorem baseline_hazard_strict_below_cap (a1 a2 : R) :
  0 <= a1 < a2 -> baseline_hazard a2 < 50 ->
  baseline_hazard a1 < baseline_hazard a2.
Proof.
  intros [H0 H12] Hcap.
  assert (Hraw2 : A * a2 ^ 2 * exp (b12 * a2) < 50).
  { rewrite baseline_hazard_Rmin in Hcap.
    destruct (Rle_dec (A * a2 ^ 2 * exp (b12 * a2)) 50) as [Hle | Hgt].
    - rewrite Rmin_left in Hcap by assumption. exact Hcap.
    - rewrite Rmin_right in Hcap by lra. lra. }
  assert (Hstrict : A * a1 ^ 2 * exp (b12 * a1) < A * a2 ^ 2 * exp (b12 * a2)).
  { pose proof A_pos as HA.
    assert (Hexp : exp (b12 * a1) < exp (b12 * a2))
      by (apply exp_increasing; rewrite b12_value; nra).
    assert (Hsq : a1 ^ 2 <= a2 ^ 2) by (apply pow_incr; lra).
    assert (Hsq2 : 0 < a2 ^ 2) by (apply pow_lt; lra).
    pose proof (pow2_ge_0 a1). pose proof (exp_pos (b12 * a1)).
    apply Rle_lt_trans with (A * a2 ^ 2 * exp (b12 * a1)).
    - apply Rmult_le_compat_r; [lra |]. apply Rmult_le_compat_l; lra.
    - apply Rmult_lt_compat_l; [| exact Hexp].
      apply Rmult_lt_0_compat; lra. }
  rewrite !baseline_hazard_Rmin, !Rmin_left by lra. exact Hstrict.
Qed.

Lemma baseline_hazard_strict_below_cap_witness :
  baseline_hazard 80 < baseline_hazard 90.
Proof.
  apply baseline_hazard_strict_below_cap; [lra |].
  pose proof baseline_hazard_90. lra.
Defined.

(** X5: For a fixed alpha > 0 the personalized risk does not decrease with
    age. *)
Theorem personalized_risk_mono_age (a1 a2 alpha : R) :
  0 <= a1 <= a2 -> 0 < alpha ->
  personalized_risk a1 alpha <= personalized_risk a2 alpha.
Proof.
  intros Hages Ha. rewrite !personalized_risk_Rmin.
  pose proof (baseline_hazard_mono a1 a2 Hages) as Hh.
  assert (Rmin (alpha * baseline_hazard a1) 50 <= Rmin (alpha * baseline_hazard a2) 50)
    by (apply Rle_min_compat_r; nra).
  assert (exp (- Rmin (alpha * baseline_hazard a2) 50)
          <= exp (- Rmin (alpha * baseline_hazard a1) 50))
    by (apply exp_le_mono; lra).
  lra.
Qed.

Lemma personalized_risk_mono_age_witness :
  personalized_risk 50 2 <= personalized_risk 60 2.
Proof. apply personalized_risk_mono_age; lra. Defined.




(** X8: Once the scaled hazard at the current age reaches the clamp
    (alpha * H0(now) >= 50), the conditional risk over every later horizon
    is 0. *)
Theorem conditional_risk_zero_when_saturated (now future alpha : R) :
  0 <= now <= future -> 50 <= alpha * baseline_hazard now ->
  conditional_risk now future alpha = 0 /\
  personalized_risk now alpha = 1 - exp (- 50).
Proof.
  intros Hages Hsat. split; [now apply conditional_risk_saturated |].
  rewrite personalized_risk_Rmin, Rmin_right by lra. reflexivity.
Qed.

Lemma conditional_risk_zero_when_saturated_witness :
  conditional_risk 90 100 5 = 0 /\ personalized_risk 90 5 = 1 - exp (- 50).
Proof.
  apply conditional_risk_zero_when_saturated; [lra |].
  pose proof baseline_hazard_90. lra.
Defined.

(** X9: A horizon that ends before it starts is not rejected: the value
    returned is then at most 0. *)
Theorem conditional_risk_reversed_nonpos (now future alpha : R) :
  0 <= future <= now -> 0 < alpha ->
  conditional_risk now future alpha <= 0.
Proof.
  intros Hages Ha. rewrite conditional_risk_exp.
  pose proof (baseline_hazard_mono future now Hages) as Hh.
  assert (Hle : Rmin (alpha * baseline_hazard future) 50
                <= Rmin (alpha * baseline_hazard now) 50)
    by (apply Rle_min_compat_r; nra).
  assert (exp 0 <= exp (- (Rmin (alpha * baseline_hazard future) 50
                           - Rmin (alpha * baseline_hazard now) 50)))
    by (apply exp_le_mono; lra).
  rewrite exp_0 in *. lra.
Qed.

Lemma conditional_risk_reversed_nonpos_witness :
  conditional_risk 60 50 1 <= 0.
Proof. apply conditional_risk_reversed_nonpos; lra. Defined.

(** ** IncidenceTable, continued *)

(** X10: Every rate the lookup returns is the rate of a band that contains the
    age and that no earlier band precedes in containing it; the only
    exception it raises is the "not covered" [ValueError], and only when no
    band contains the age. *)
Theorem get_seer_incidence_sound (seer_df : list seer_row) (age : R)
    (sex_bin : Z) :
  match get_seer_incidence seer_df age sex_bin with
  | inr rate =>
      exists before row after,
        seer_df = before ++ row :: after /\
        Forall (fun r => ~ in_band r age) before /\ in_band row age /\
        rate = (if (sex_bin =? 1)%Z then Male_Rate row else Female_Rate row)
  | inl e =>
      e = ValueError "Age not covered in SEER table" /\
      Forall (fun r => ~ in_band r age) seer_df
  end.
Proof.
  induction seer_df as [| r rest IH].
  - cbn. split; [reflexivity | constructor].
  - destruct (in_band_dec r age) as [Hin | Hout].
    + rewrite get_seer_incidence_hit by assumption.
      exists [], r, rest.
      split; [reflexivity |]. split; [constructor |]. split; [exact Hin | reflexivity].
    + rewrite get_seer_incidence_skip by assumption.
      destruct (get_seer_incidence rest age sex_bin) as [e | rate].
      * destruct IH as [-> Hall]. split; [reflexivity | now constructor].
      * destruct IH as (before & row & after & -> & Hbefore & Hrow & ->).
        exists (r :: before), row, after.
        split; [reflexivity |]. split; [now constructor |].
        split; [exact Hrow | reflexivity].
Qed.

(** X11: An age strictly between two consecutive integers z and z + 1 is covered
    only by a band that spans both: when no band does (as in a table of
    bands 20-24, 25-29, ... at age 24.5), the lookup raises. *)
Theorem get_seer_incidence_fractional_age (seer_df : list seer_row)
    (age : R) (z sex_bin : Z) :
  IZR z < age < IZR z + 1 ->
  Forall (fun row => ~ (fst (Age_Group row) <= z /\ z + 1 <= snd (Age_Group row))%Z)
    seer_df ->
  get_seer_incidence seer_df age sex_bin =
  inl (ValueError "Age not covered in SEER table").
Proof.
  intros [Hlo Hhi] Hspan. apply get_seer_incidence_uncovered.
  eapply Forall_impl; [exact Hspan |].
  intros row Hrow [Hs He]. apply Hrow. split.
  - assert (Hlt : IZR (fst (Age_Group row)) < IZR (z + 1))
      by (rewrite plus_IZR; lra).
    apply lt_IZR in Hlt. lia.
  - assert (Hlt : IZR z < IZR (snd (Age_Group row))) by lra.
    apply lt_IZR in Hlt. lia.
Qed.

Lemma get_seer_incidence_fractional_age_witness :
  get_seer_incidence
    [ {| Age_Group := (20, 24)%Z; Male_Rate := 1; Female_Rate := 2 |};
      {| Age_Group := (25, 29)%Z; Male_Rate := 3; Female_Rate := 4 |} ]
    24.5 1 =
  inl (ValueError "Age not covered in SEER table").
Proof.
  apply (get_seer_incidence_fractional_age _ 24.5 24 1); [lra |].
  repeat constructor; cbn; lia.
Defined.

(** X12: Every sex code other than 1 is read as female: the lookup, the
    calibration and the population baseline are those of sex code 0. *)
Theorem sex_code_other_than_1_is_female (seer_df : list seer_row) (age : R)
    (sex_bin : Z) :
  sex_bin <> 1%Z ->
  get_seer_incidence seer_df age sex_bin = get_seer_incidence seer_df age 0 /\
  calibrate_log_alpha seer_df age sex_bin = calibrate_log_alpha seer_df age 0 /\
  population_lifetime_risk sex_bin = population_lifetime_risk 0.
Proof.
  intros Hsex.
  assert (Hb : (sex_bin =? 1)%Z = false) by now apply Z.eqb_neq.
  assert (Hget : get_seer_incidence seer_df age sex_bin
                 = get_seer_incidence seer_df age 0).
  { induction seer_df as [| r rest IH]; [reflexivity |].
    rewrite !get_seer_incidence_cons, IH, Hb. reflexivity. }
  split; [exact Hget |]. split.
  - unfold calibrate_log_alpha. now rewrite Hget.
  - unfold population_lifetime_risk. now rewrite Hb.
Qed.

Lemma sex_code_other_than_1_is_female_witness :
  let seer_df :=
    [ {| Age_Group := (50, 54)%Z; Male_Rate := 80; Female_Rate := 60 |} ] in
  get_seer_incidence seer_df 50 2 = get_seer_incidence seer_df 50 0 /\
  calibrate_log_alpha seer_df 50 2 = calibrate_log_alpha seer_df 50 0 /\
  population_lifetime_risk 2 = population_lifetime_risk 0.
Proof.
  intros seer_df. apply sex_code_other_than_1_is_female. discriminate.
Defined.

(** ** Calibrator, continued *)





(** When the model risk is 0 at every midpoint and the target is at least
    the tolerance, every pass raises the lower bound. *)
Lemma bisect_loop_never_reaches (age target : R) (n : nat) (low high mid : R) :
  (forall m, conditional_risk age (age + 5) (exp m) = 0) ->
  1e-4 <= target -> (0 < n)%nat ->
  bisect_loop n age target low high mid = high - (high - low) / 2 ^ n.
Proof.
  intros Hzero Htarget. revert low high mid.
  induction n as [| n IH]; intros low high mid Hn; [lia |].
  cbn [bisect_loop]. rewrite Hzero.
  destruct (Rlt_dec (Rabs (0 - target)) 1e-4) as [Htol | _].
  { rewrite Rabs_left in Htol by lra. lra. }
  destruct (Rlt_dec 0 target) as [_ | Hge]; [| lra].
  destruct n as [| n'].
  - cbn [bisect_loop]. simpl. field.
  - rewrite IH by lia.
    assert (Hpow : 2 ^ S n' <> 0) by (apply pow_nonzero; lra).
    change (2 ^ S (S n')) with (2 * 2 ^ S n'). field. exact Hpow.
Qed.

Lemma conditional_risk_zero_from_95 (now future alpha : R) :
  95 <= now <= future -> conditional_risk now future alpha = 0.
Proof.
  intros Hages. rewrite conditional_risk_exp.
  rewrite !baseline_hazard_from_95 by lra.
  replace (- (_ - _)) with 0 by ring. rewrite exp_0. ring.
Qed.

Lemma target_5yr_above_tolerance (rate : R) :
  3 <= rate -> 1e-4 <= 1 - exp (-5 * rate / 100000).
Proof.
  intros Hrate. set (y := 0.00015).
  assert (Hy : y = 0.00015) by reflexivity.
  assert (Hle : exp (-5 * rate / 100000) <= exp (- y))
    by (apply exp_le_mono; lra).
  pose proof (exp_ineq1_le y) as Hlow.
  assert (Hinv : exp (- y) <= / (1 + y)).
  { rewrite exp_Ropp. apply Rinv_le_contravar; lra. }
  assert (/ (1 + y) <= 1 - 1e-4); [| lra].
  apply Rmult_le_reg_r with (1 + y); [lra |].
  rewrite Rinv_l by lra. lra.
Qed.

(** X14: From age 95 on the model's 5-year risk is 0 for every alpha, so the
    calibration cannot reach a target of 1e-4 or more (an incidence of at
    least 3 per 100,000): all 100 passes raise the lower bound and the value
    returned is the last midpoint, 2 - 7 / 2^100. *)
Theorem calibrate_log_alpha_degenerate_from_95 (seer_df : list seer_row)
    (age : R) (sex_bin : Z) (rate : R) :
  95 <= age -> get_seer_incidence seer_df age sex_bin = inr rate -> 3 <= rate ->
  calibrate_log_alpha seer_df age sex_bin = inr (2 - 7 / 2 ^ 100).
Proof.
  intros Hage Hrate Hthree. unfold calibrate_log_alpha. rewrite Hrate.
  cbn [bind ret]. unfold ret. f_equal.
  rewrite bisect_loop_never_reaches.
  - f_equal. f_equal. ring.
  - intros m. apply conditional_risk_zero_from_95. lra.
  - now apply target_5yr_above_tolerance.
  - lia.
Qed.

Lemma calibrate_log_alpha_degenerate_from_95_witness :
  calibrate_log_alpha
    [ {| Age_Group := (85, 100)%Z; Male_Rate := 300; Female_Rate := 250 |} ]
    96 1 = inr (2 - 7 / 2 ^ 100).
Proof.
  apply (calibrate_log_alpha_degenerate_from_95 _ 96 1 300); [lra | | lra].
  rewrite get_seer_incidence_hit; [reflexivity |].
  unfold in_band; cbn; lra.
Defined.

(** ** AlphaComposer, continued *)

Lemma clinical_scale_pos (f : string) (s : R) :
  clinical_scale !! f = Some s -> 0 < s.
Proof.
  unfold clinical_scale. intros Hs.
  repeat (apply lookup_insert_Some in Hs as [[_ <-] | [_ Hs]]; [lra |]).
  rewrite lookup_empty in Hs. discriminate.
Qed.


(** Two entries whose passes agree on every accumulator are interchangeable. *)
Lemma compute_alpha_same_step (coeff : gmap string R)
    (before after : list (string * R)) (item1 item2 : string * R)
    (log_alpha_base : R) :
  (forall ref_coef acc,
     coeff !! "APC_mut"%string = Some ref_coef ->
     alpha_step (norm_coeff coeff ref_coef) acc item1 =
     alpha_step (norm_coeff coeff ref_coef) acc item2) ->
  compute_alpha coeff (before ++ item1 :: after) log_alpha_base =
  compute_alpha coeff (before ++ item2 :: after) log_alpha_base.
Proof.
  intros Hsame. unfold compute_alpha, getitem.
  destruct (coeff !! "APC_mut"%string) as [ref_coef |] eqn:Href; cbn [bind ret];
    [| reflexivity].
  rewrite !for_items_app.
  destruct (for_items _ before log_alpha_base) as [e | acc]; cbn [bind for_items];
    [reflexivity |].
  rewrite (Hsame ref_coef acc eq_refl). reflexivity.
Qed.









(** X18: With a positive APC-mutation coefficient, raising the value of any
    feature other than the sex indicator (a higher BMI, a flag going from 0
    to 1) never lowers alpha. *)
Theorem compute_alpha_mono_value (coeff : gmap string R)
    (before after : list (string * R)) (f : string)
    (v1 v2 log_alpha_base ref_coef : R) :
  coeff !! "APC_mut"%string = Some ref_coef -> 0 < ref_coef ->
  f <> "Sex_bin"%string ->
  Forall (fun item => is_Some (clinical_scale !! fst item))
    (before ++ (f, v1) :: after) ->
  v1 <= v2 ->
  exists alpha1 alpha2,
    compute_alpha coeff (before ++ (f, v1) :: after) log_alpha_base = inr alpha1 /\
    compute_alpha coeff (before ++ (f, v2) :: after) log_alpha_base = inr alpha2 /\
    alpha1 <= alpha2.
Proof.
  intros Href Hpos Hsex Hknown Hv.
  apply Forall_app in Hknown as [Hb Hfa].
  apply Forall_cons in Hfa as [[s Hs] Ha]. cbn [fst] in Hs.
  set (norm := norm_coeff coeff ref_coef).
  destruct (for_items_additive norm _ Hb) as [db Hdb].
  destruct (for_items_additive norm _ Ha) as [da Hda].
  assert (Hstep : exists d1 d2, d1 <= d2 /\
            forall acc, alpha_step norm acc (f, v1) = inr (acc + d1) /\
                        alpha_step norm acc (f, v2) = inr (acc + d2)).
  { unfold alpha_step, getitem. rewrite Hs.
    destruct (norm !! f) as [w |] eqn:Hw.
    2:{ exists 0, 0. split; [lra |]. intros acc. unfold ret.
        split; f_equal; ring. }
    pose proof (norm_coeff_nonneg _ _ _ _ Hpos Hw) as Hw0.
    pose proof (clinical_scale_pos _ _ Hs) as Hs0.
    assert (Hsw : 0 <= s * w) by nra.
    destruct (decide (f = "BMI"%string)) as [_ | _].
    - destruct (Rgt_dec v1 25) as [H1 | H1]; destruct (Rgt_dec v2 25) as [H2 | H2];
        try lra.
      + exists (Rmin (s * w * (v1 - 25)) 1.0), (Rmin (s * w * (v2 - 25)) 1.0).
        split; [apply Rle_min_compat_r; nra |]. intros acc. split; reflexivity.
      + exists 0, (Rmin (s * w * (v2 - 25)) 1.0).
        split; [apply Rmin_glb; nra |]. intros acc. unfold ret. cbn [bind].
        split; [f_equal; ring | reflexivity].
      + exists 0, 0. split; [lra |]. intros acc. unfold ret. split; f_equal; ring.
    - destruct (decide (f = "Sex_bin"%string)); [contradiction |].
      exists (Rmin (s * w * v1) 1.0), (Rmin (s * w * v2) 1.0).
      split; [apply Rle_min_compat_r; nra |]. intros acc. split; reflexivity. }
  destruct Hstep as (d1 & d2 & Hd & Hsteps).
  unfold compute_alpha, getitem. rewrite Href. cbn [bind ret]. fold norm.
  rewrite !for_items_app, !Hdb. cbn [bind for_items].
  destruct (Hsteps (log_alpha_base + db)) as [-> ->]. cbn [bind].
  rewrite !Hda. cbn [bind]. do 2 eexists.
  split; [reflexivity |]. split; [reflexivity |].
  apply alpha_clamp_mono. lra.
Qed.

Lemma compute_alpha_mono_value_witness :
  let coeff : gmap string R :=
    <["APC_mut"%string := 2]> (<["BMI"%string := 1]> ∅) in
  exists alpha1 alpha2,
    compute_alpha coeff ([("BMI"%string, 30)] ++ ("APC_mut"%string, 0)
                          :: [("Sex_bin"%string, 0)]) 0 = inr alpha1 /\
    compute_alpha coeff ([("BMI"%string, 30)] ++ ("APC_mut"%string, 1)
                          :: [("Sex_bin"%string, 0)]) 0 = inr alpha2 /\
    alpha1 <= alpha2.
Proof.
  intros coeff.
  apply (compute_alpha_mono_value coeff _ _ "APC_mut" 0 1 0 2).
  - unfold coeff. by simplify_map_eq.
  - lra.
  - discriminate.
  - repeat constructor; unfold clinical_scale; by simplify_map_eq.
  - lra.
Defined.

Lemma for_items_permutation (norm : gmap string R) (l1 l2 : list (string * R)) :
  Permutation l1 l2 ->
  Forall (fun item => is_Some (clinical_scale !! fst item)) l1 ->
  forall acc, for_items (alpha_step norm) l1 acc = for_items (alpha_step norm) l2 acc.
Proof.
  induction 1 as [| [f v] l1 l2 Hperm IH | [f1 v1] [f2 v2] l | l1 l2 l3 H12 IH12 H23 IH23];
    intros Hknown acc.
  - reflexivity.
  - apply Forall_cons in Hknown as [Hf Hrest]. cbn [for_items].
    destruct (alpha_step norm acc (f, v)); cbn [bind]; [reflexivity | now apply IH].
  - apply Forall_cons in Hknown as [H2 Hrest].
    apply Forall_cons in Hrest as [H1 Hrest].
    destruct (alpha_step_additive norm f1 v1 H1) as [d1 Hd1].
    destruct (alpha_step_additive norm f2 v2 H2) as [d2 Hd2].
    cbn [for_items]. rewrite !Hd1, !Hd2. cbn [bind]. rewrite Hd1, Hd2. cbn [bind].
    f_equal. ring.
  - rewrite IH12 by assumption. apply IH23.
    rewrite <- H12. exact Hknown.
Qed.

(** X19: The order of the entries does not matter: on features that
    [clinical_scale] knows, any reordering of the feature set gives the same
    alpha. *)
Theorem compute_alpha_order_independent (coeff : gmap string R)
    (features1 features2 : list (string * R)) (log_alpha_base : R) :
  Permutation features1 features2 ->
  Forall (fun item => is_Some (clinical_scale !! fst item)) features1 ->
  compute_alpha coeff features1 log_alpha_base =
  compute_alpha coeff features2 log_alpha_base.
Proof.
  intros Hperm Hknown. unfold compute_alpha.
  destruct (getitem coeff "APC_mut") as [e | ref_coef]; cbn [bind]; [reflexivity |].
  now rewrite (for_items_permutation _ _ _ Hperm Hknown).
Qed.

Lemma compute_alpha_order_independent_witness :
  let coeff : gmap string R :=
    <["APC_mut"%string := 2]> (<["BMI"%string := 1]> ∅) in
  compute_alpha coeff [("BMI"%string, 30); ("APC_mut"%string, 1)] 0 =
  compute_alpha coeff [("APC_mut"%string, 1); ("BMI"%string, 30)] 0.
Proof.
  intros coeff. apply compute_alpha_order_independent.
  - apply perm_swap.
  - repeat constructor; unfold clinical_scale; by simplify_map_eq.
Defined.

(** X20: The BMI contribution is capped at 1.0 log-units: two BMIs above 25 that
    both reach the cap give the same outcome. *)
Theorem compute_alpha_bmi_cap (coeff : gmap string R)
    (before after : list (string * R)) (v1 v2 log_alpha_base ref_coef cb : R) :
  coeff !! "APC_mut"%string = Some ref_coef ->
  coeff !! "BMI"%string = Some cb ->
  25 < v1 -> 25 < v2 ->
  1 <= 0.2 * (Rabs cb / ref_coef) * (v1 - 25) ->
  1 <= 0.2 * (Rabs cb / ref_coef) * (v2 - 25) ->
  compute_alpha coeff (before ++ ("BMI"%string, v1) :: after) log_alpha_base =
  compute_alpha coeff (before ++ ("BMI"%string, v2) :: after) log_alpha_base.
Proof.
  intros Href Hcb H1 H2 Hcap1 Hcap2.
  apply compute_alpha_same_step. intros ref' acc Href'.
  assert (ref' = ref_coef) as -> by congruence.
  unfold alpha_step, getitem. rewrite norm_coeff_lookup, Hcb. cbn [fmap option_fmap option_map].
  destruct (decide ("BMI"%string = "BMI"%string)); [| congruence].
  destruct (Rgt_dec v1 25); [| lra]. destruct (Rgt_dec v2 25); [| lra].
  assert (Hscale : clinical_scale !! "BMI"%string = Some 0.2)
    by (unfold clinical_scale; by simplify_map_eq).
  rewrite Hscale. cbn [bind ret]. unfold ret. f_equal.
  rewrite !Rmin_right by lra. reflexivity.
Qed.

Lemma compute_alpha_bmi_cap_witness :
  let coeff : gmap string R :=
    <["APC_mut"%string := 2]> (<["BMI"%string := 1]> ∅) in
  compute_alpha coeff ([] ++ ("BMI"%string, 40) :: [("APC_mut"%string, 1)]) 0 =
  compute_alpha coeff ([] ++ ("BMI"%string, 60) :: [("APC_mut"%string, 1)]) 0.
Proof.
  intros coeff.
  apply (compute_alpha_bmi_cap coeff [] _ 40 60 0 2 1).
  - unfold coeff. by simplify_map_eq.
  - unfold coeff. by simplify_map_eq.
  - lra.
  - lra.
  - rewrite Rabs_R1. lra.
  - rewrite Rabs_R1. lra.
Defined.

(** ** RiskEngine, continued *)







(** The lookup either raises the "not covered" error, no band containing
    the age, or returns, some band containing it. *)
Lemma get_seer_incidence_cases (seer_df : list seer_row) (age : R) (sex_bin : Z) :
  match get_seer_incidence seer_df age sex_bin with
  | inl e =>
      e = ValueError "Age not covered in SEER table" /\
      Forall (fun row => ~ in_band row age) seer_df
  | inr _ => Exists (fun row => in_band row age) seer_df
  end.
Proof.
  induction seer_df as [| r rest IH]; [split; [reflexivity | constructor] |].
  destruct (in_band_dec r age) as [Hin | Hout].
  - rewrite get_seer_incidence_hit by assumption. now left.
  - rewrite get_seer_incidence_skip by assumption.
    destruct (get_seer_incidence rest age sex_bin).
    + destruct IH as [-> Hall]. split; [reflexivity | now constructor].
    + now right.
Qed.












Lemma lower_ascii_inv (lo up : ascii) :
  (lo = "m"%char /\ up = "M"%char) \/ (lo = "a"%char /\ up = "A"%char) \/
  (lo = "l"%char /\ up = "L"%char) \/ (lo = "e"%char /\ up = "E"%char) ->
  forall c, lower_ascii c = lo <-> (c = lo \/ c = up).
Proof.
  intros Hcase c. split.
  - destruct Hcase as [[-> ->] | [[-> ->] | [[-> ->] | [-> ->]]]];
      destruct c as [[] [] [] [] [] [] [] []]; vm_compute;
      intros H; first [discriminate H | now left | now right].
  - destruct Hcase as [[-> ->] | [[-> ->] | [[-> ->] | [-> ->]]]];
      intros [-> | ->]; reflexivity.
Qed.

Lemma lower_is_male (g : string) :
  String.eqb (lower g) "male" = true <-> male_spelling g.
Proof.
  rewrite String.eqb_eq. unfold male_spelling. split.
  - destruct g as [| c1 [| c2 [| c3 [| c4 [| c5 g]]]]]; cbn [lower];
      try discriminate.
    intros [= H1 H2 H3 H4].
    exists c1, c2, c3, c4. split; [reflexivity |].
    apply (lower_ascii_inv "m" "M") in H1; [| tauto].
    apply (lower_ascii_inv "a" "A") in H2; [| tauto].
    apply (lower_ascii_inv "l" "L") in H3; [| tauto].
    apply (lower_ascii_inv "e" "E") in H4; [| tauto].
    tauto.
  - intros (c1 & c2 & c3 & c4 & -> & H1 & H2 & H3 & H4). cbn [lower].
    apply (lower_ascii_inv "m" "M") in H1; [| tauto].
    apply (lower_ascii_inv "a" "A") in H2; [| tauto].
    apply (lower_ascii_inv "l" "L") in H3; [| tauto].
    apply (lower_ascii_inv "e" "E") in H4; [| tauto].
    now rewrite H1, H2, H3, H4.
Qed.

(** X24: The gender string matters only through whether it spells "male" in
    some mix of upper and lower case: such a record is handled as gender
    "male", and every other string (empty, "M", " male", "man") as
    "female". *)
Theorem predict_risk_gender (coeff : gmap string R) (seer_df : list seer_row)
    (data : PatientInput.t) (g : string) :
  (male_spelling g ->
   predict_risk coeff seer_df (with_gender data g) =
   predict_risk coeff seer_df (with_gender data "male")) /\
  (~ male_spelling g ->
   predict_risk coeff seer_df (with_gender data g) =
   predict_risk coeff seer_df (with_gender data "female")).
Proof.
  split; intros Hg; unfold predict_risk, with_gender; cbn [PatientInput.gender
    PatientInput.age PatientInput.bmi PatientInput.kras PatientInput.apc
    PatientInput.tp53 PatientInput.mmr].
  - apply lower_is_male in Hg. rewrite Hg. reflexivity.
  - destruct (String.eqb (lower g) "male") eqn:Hlow.
    + exfalso. apply Hg, lower_is_male, Hlow.
    + reflexivity.
Qed.

Lemma predict_risk_gender_witness :
  let coeff : gmap string R := <["APC_mut"%string := 2]> ∅ in
  let seer_df :=
    [ {| Age_Group := (50, 54)%Z; Male_Rate := 80; Female_Rate := 60 |} ] in
  let data :=
    {| PatientInput.age := 52; PatientInput.bmi := 27;
       PatientInput.gender := ""; PatientInput.kras := 0;
       PatientInput.apc := 1; PatientInput.tp53 := 0; PatientInput.mmr := 0 |} in
  predict_risk coeff seer_df (with_gender data "MaLe") =
  predict_risk coeff seer_df (with_gender data "male") /\
  predict_risk coeff seer_df (with_gender data "M") =
  predict_risk coeff seer_df (with_gender data "female").
Proof.
  intros coeff seer_df data. split.
  - apply (proj1 (predict_risk_gender coeff seer_df data "MaLe")).
    exists "M"%char, "a"%char, "L"%char, "e"%char. tauto.
  - apply (proj2 (predict_risk_gender coeff seer_df data "M")).
    intros (c1 & c2 & c3 & c4 & Heq & _). discriminate Heq.
Defined.

(** ** Population comparison *)

(** X25: The category boundaries are closed below: a ratio under 1 is "Below
    average", from 1 up to 2 "Average", from 2 up to 4 "Moderately
    elevated", and 4 or more "Very high". *)
Theorem relative_risk_category_boundaries (rr : R) :
  (relative_risk_category rr = "Below average population risk"%string <-> rr < 1) /\
  (relative_risk_category rr = "Average population risk"%string <-> 1 <= rr < 2) /\
  (relative_risk_category rr = "Moderately elevated risk"%string <-> 2 <= rr < 4) /\
  (relative_risk_category rr = "Very high risk"%string <-> 4 <= rr).
Proof.
  unfold relative_risk_category.
  destruct (Rlt_dec rr 1.0) as [H1 | H1];
    [| destruct (Rlt_dec rr 2.0) as [H2 | H2];
       [| destruct (Rlt_dec rr 4.0) as [H4 | H4]]];
    repeat split; intros; try discriminate; try reflexivity; lra.
Qed.

(** ** Calibration debug check *)

Lemma check_age_cases (seer_df : list seer_row) (sex_bin age : Z) :
  match check_age seer_df sex_bin age with
  | inl e =>
      e = ValueError "Age not covered in SEER table" /\
      Forall (fun row => ~ in_band row (IZR age)) seer_df
  | inr row =>
      Exists (fun row => in_band row (IZR age)) seer_df /\
      exists seer_pct model_pct log_alpha,
        row = CalibrationRow age seer_pct model_pct log_alpha /\
        calibrate_log_alpha seer_df (IZR age) sex_bin = inr log_alpha
  end.
Proof.
  unfold check_age, calibrate_log_alpha.
  pose proof (get_seer_incidence_cases seer_df (IZR age) sex_bin) as Hcases.
  destruct (get_seer_incidence seer_df (IZR age) sex_bin) as [e | rate];
    cbn [bind ret]; [exact Hcases |].
  split; [exact Hcases |]. do 3 eexists. split; reflexivity.
Qed.

Lemma check_ages_covered (seer_df : list seer_row) (sex_bin : Z)
    (ages : list Z) (out : list printed) :
  Forall (fun age => Exists (fun row => in_band row (IZR age)) seer_df) ages ->
  exists rows,
    check_ages seer_df sex_bin ages out = (out ++ rows, inr tt) /\
    Forall2 (fun age row => check_age seer_df sex_bin age = inr row) ages rows.
Proof.
  intros Hcov. revert out.
  induction Hcov as [| age rest Hage _ IH]; intros out; cbn [check_ages].
  - exists []. rewrite app_nil_r. split; [reflexivity | constructor].
  - pose proof (check_age_cases seer_df sex_bin age) as Hcases.
    destruct (check_age seer_df sex_bin age) as [e | row] eqn:Hrow.
    + exfalso. destruct Hcases as [_ Hnone].
      apply Exists_exists in Hage as (r & Hin & Hband).
      rewrite Forall_forall in Hnone. exact (Hnone r Hin Hband).
    + destruct (IH (out ++ [row])) as (rows & -> & Hrows).
      exists (row :: rows). rewrite <- app_assoc. split; [reflexivity |].
      now constructor.
Qed.

Lemma check_ages_uncovered (seer_df : list seer_row) (sex_bin : Z)
    (ages : list Z) (out : list printed) :
  Exists (fun age => Forall (fun row => ~ in_band row (IZR age)) seer_df) ages ->
  exists rows,
    check_ages seer_df sex_bin ages out =
      (out ++ rows, inl (ValueError "Age not covered in SEER table")) /\
    (length rows < length ages)%nat.
Proof.
  intros Hunc. revert out.
  induction ages as [| age rest IH]; intros out; [inversion Hunc |].
  cbn [check_ages].
  pose proof (check_age_cases seer_df sex_bin age) as Hcases.
  destruct (check_age seer_df sex_bin age) as [e | row].
  - destruct Hcases as [-> _]. exists []. rewrite app_nil_r.
    split; [reflexivity | cbn; lia].
  - destruct Hcases as [Hcov _].
    assert (Hrest : Exists (fun age => Forall (fun row => ~ in_band row (IZR age)) seer_df)
                      rest).
    { inversion Hunc as [? ? Hhead | ? ? Htail]; subst; [| exact Htail].
      exfalso. apply Exists_exists in Hcov as (r & Hin & Hband).
      rewrite Forall_forall in Hhead. exact (Hhead r Hin Hband). }
    destruct (IH Hrest (out ++ [row])) as (rows & -> & Hlen).
    exists (row :: rows). rewrite <- app_assoc.
    split; [reflexivity | cbn; lia].
Qed.

Lemma debug_check_calibration_unfold (seer_df : list seer_row) :
  debug_check_calibration seer_df =
  match check_ages seer_df 0 test_ages
          [Text (String (ascii_of_nat 10) "=== Calibration check for Female ===")]
  with
  | (out, inl e) => (out, inl e)
  | (out, inr _) =>
      match check_ages seer_df 1 test_ages
              (out ++ [Text (String (ascii_of_nat 10)
                               "=== Calibration check for Male ===")])
      with
      | (out', inl e) => (out', inl e)
      | (out', inr _) => (out', inr tt)
      end
  end.
Proof. reflexivity. Qed.

(** X26: The check that runs when the module is loaded succeeds exactly on a
    table that covers the ages 45, 50, 60 and 70.  It then prints the
    "Female" header and one row per age, then the "Male" header and one row
    per age.  If one of the four ages is not covered it stops with the "not
    covered" [ValueError] during the "Female" pass, after the header and
    fewer than four rows. *)
Theorem debug_check_calibration_outcome (seer_df : list seer_row) :
  (Forall (fun age => Exists (fun row => in_band row (IZR age)) seer_df) test_ages ->
   exists rows_f rows_m,
     debug_check_calibration seer_df =
       (Text (String (ascii_of_nat 10) "=== Calibration check for Female ===")
          :: rows_f ++
        Text (String (ascii_of_nat 10) "=== Calibration check for Male ===")
          :: rows_m,
        inr tt) /\
     Forall2 (fun age row => check_age seer_df 0 age = inr row) test_ages rows_f /\
     Forall2 (fun age row => check_age seer_df 1 age = inr row) test_ages rows_m) /\
  (Exists (fun age => Forall (fun row => ~ in_band row (IZR age)) seer_df) test_ages ->
   exists rows,
     debug_check_calibration seer_df =
       (Text (String (ascii_of_nat 10) "=== Calibration check for Female ===")
          :: rows,
        inl (ValueError "Age not covered in SEER table")) /\
     (length rows < 4)%nat).
Proof.
  rewrite debug_check_calibration_unfold. split.
  - intros Hcov.
    destruct (check_ages_covered seer_df 0 test_ages
                [Text (String (ascii_of_nat 10) "=== Calibration check for Female ===")]
                Hcov) as (rows_f & -> & Hrows_f).
    destruct (check_ages_covered seer_df 1 test_ages
                (([Text (String (ascii_of_nat 10)
                          "=== Calibration check for Female ===")] ++ rows_f)
                 ++ [Text (String (ascii_of_nat 10)
                             "=== Calibration check for Male ===")])
                Hcov) as (rows_m & -> & Hrows_m).
    exists rows_f, rows_m. split; [| split; assumption].
    rewrite <- !app_assoc. reflexivity.
  - intros Hunc.
    destruct (check_ages_uncovered seer_df 0 test_ages
                [Text (String (ascii_of_nat 10) "=== Calibration check for Female ===")]
                Hunc) as (rows & -> & Hlen).
    exists rows. split; [reflexivity | exact Hlen].
Qed.

Lemma debug_check_calibration_outcome_witness :
  (exists rows_f rows_m,
     debug_check_calibration
       [ {| Age_Group := (40, 79)%Z; Male_Rate := 80; Female_Rate := 60 |} ] =
       (Text (String (ascii_of_nat 10) "=== Calibration check for Female ===")
          :: rows_f ++
        Text (String (ascii_of_nat 10) "=== Calibration check for Male ===")
          :: rows_m,
        inr tt) /\
     Forall2 (fun age row =>
                check_age [ {| Age_Group := (40, 79)%Z; Male_Rate := 80;
                               Female_Rate := 60 |} ] 0 age = inr row)
       test_ages rows_f /\
     Forall2 (fun age row =>
                check_age [ {| Age_Group := (40, 79)%Z; Male_Rate := 80;
                               Female_Rate := 60 |} ] 1 age = inr row)
       test_ages rows_m) /\
  (exists rows,
     debug_check_calibration
       [ {| Age_Group := (40, 64)%Z; Male_Rate := 80; Female_Rate := 60 |} ] =
       (Text (String (ascii_of_nat 10) "=== Calibration check for Female ===")
          :: rows,
        inl (ValueError "Age not covered in SEER table")) /\
     (length rows < 4)%nat).
Proof.
  split.
  - apply (proj1 (debug_check_calibration_outcome _)).
    unfold test_ages. repeat constructor; unfold in_band; cbn; lra.
  - apply (proj2 (debug_check_calibration_outcome _)).
    unfold test_ages. do 3 right. left.
    repeat constructor. unfold in_band; cbn; lra.
Defined.
